(** * PingPongBot: a shallow embedding of [src/index.ts]

    The bot answers every [Ping()] event of a contract with one [pong()]
    transaction.  It keeps two in-memory queues (a common one and a "force"
    one with a doubled gas limit), a state manager that mirrors its fields
    into a JSON file, and a periodic pass that catches missed events.

    Modelling conventions.
    - A JavaScript [number] holding a block number, a gas limit or a receipt
      status is an integer [Z] (no [NaN], no fractions).
    - A JavaScript object used as a dictionary from transaction hashes is a
      [gmap string _]; the keys are transaction hashes, never the name of a
      property inherited from [Object.prototype].
    - The state file, when it exists, holds the JSON text of a [State]
      object; [JSON.stringify] followed by [JSON.parse] is the identity,
      and [fs.writeFileSync] succeeds.  A state file that is not JSON is
      covered by [construct], which runs the constructor on raw files.
    - Every method is a computation in the monad [M S]: it reads and updates
      the object state [S], emits a list of effects (log lines, calls to
      the contract, file writes) and either returns or throws.
    - What the outside world answers at an [await] is an argument of the
      computation ([PongOutcome], [QueryOutcome]). *)

From stdpp Require Import gmap strings list fin_maps.
From Stdlib Require Import ZArith.

Local Open Scope string_scope.
Local Open Scope Z_scope.

(** ** Constants and plain data *)

Definition COMMON_PING_EVENT_QUEUE : string := "Common_Ping_Event_Queue".
Definition FORCE_PING_EVENT_QUEUE : string := "Force_Ping_Event_Queue".

(** The fields of ethers' [EventLog] that the bot reads, and [index] (the
    position of the log in its block), which tells apart two logs of one
    transaction. *)
Record EventLog := {
  transactionHash : string;
  blockNumber : Z;
  index : Z
}.

#[global] Instance EventLog_eq_dec : EqDecision EventLog.
Proof. solve_decision. Defined.

(** [interface State]: the JSON object of the state file.  The two maps may
    be missing from a file (the constructor reads them with [|| {}]). *)
Module State.
Record t := {
  lastBlock : Z;
  sentTransactions : option (gmap string Z);
  failedTransactions : option (gmap string Z)
}.
End State.

Module Configuration.
Record t := {
  lastBlock : Z;
  defaultGasLimit : Z;
  stateFile : string
}.
End Configuration.

(** The values set by [Configuration]'s constructor. *)
Definition configuration : Configuration.t := {|
  Configuration.lastBlock := 7979028;
  Configuration.defaultGasLimit := 50000;
  Configuration.stateFile := "lastBlock.json"
|}.

(** ** Exceptions, effects and the monad *)

Inductive Exn :=
| Error (message : string)
| TypeError (message : string)
| SyntaxError (message : string).

Inductive Result (A : Type) :=
| Ok (a : A)
| Throw (e : Exn).
Arguments Ok {A} a.
Arguments Throw {A} e.

Definition is_throw {A} (r : Result A) : bool :=
  match r with Ok _ => false | Throw _ => true end.

(** One constructor per log line of the source. *)
Inductive Message :=
| PushedIntoQueue (block : Z) (queueName : string)
| NotPushedDuplicate (block : Z) (queueName : string)
| CatchingNewPing (block : Z)
| ProcessingEvent (queueName : string) (len : Z) (txHash : string) (block : Z)
| ErrorSendingPong (txHash : string) (error : Exn)
| PongSentFor (txHash pongHash : string)
| PongConfirmed (block : Z)
| SentTxFailed (error : Exn) (txHash : string)
| CheckingMissed (fromBlock toBlock : Z)
| FoundEvents (n : Z)
| FoundMissedPing (txHash : string) (block : Z)
| AlreadySent (txHash : string) (block : Z)
| BotStarted (currentBlock : Z).

Inductive Sink := LoggerInfo | LoggerWarn | ConsoleLog | ConsoleError.

Inductive Effect :=
| Emit (sink : Sink) (msg : Message)
| ContractPong (txHash : string) (gasLimit : Z)
| TxWait (pongHash : string)
| QueryFilter (fromBlock toBlock : Z)
| WriteFileSync (path : string) (data : State.t).

Definition is_pong (e : Effect) : bool :=
  match e with ContractPong _ _ => true | _ => false end.
Definition is_query (e : Effect) : bool :=
  match e with QueryFilter _ _ => true | _ => false end.
Definition is_write (e : Effect) : bool :=
  match e with WriteFileSync _ _ => true | _ => false end.

Record Outcome (S A : Type) := {
  result : Result A;
  state : S;
  effects : list Effect
}.
Arguments result {S A} _.
Arguments state {S A} _.
Arguments effects {S A} _.

Definition M (S A : Type) : Type := S → Outcome S A.

#[global] Instance M_ret {S} : MRet (M S) :=
  λ A a s, {| result := Ok a; state := s; effects := [] |}.

(** A statement that throws skips the rest; the state it reached and the
    effects it emitted stay. *)
#[global] Instance M_bind {S} : MBind (M S) :=
  λ A B f m s,
    match m s with
    | {| result := Ok a; state := s1; effects := l1 |} =>
        match f a s1 with
        | {| result := r; state := s2; effects := l2 |} =>
            {| result := r; state := s2; effects := l1 ++ l2 |}
        end
    | {| result := Throw e; state := s1; effects := l1 |} =>
        {| result := Throw e; state := s1; effects := l1 |}
    end.

Definition throw {S A} (e : Exn) : M S A :=
  λ s, {| result := Throw e; state := s; effects := [] |}.

Definition emit {S} (e : Effect) : M S () :=
  λ s, {| result := Ok (); state := s; effects := [e] |}.

Definition get {S} : M S S :=
  λ s, {| result := Ok s; state := s; effects := [] |}.

Definition modify {S} (f : S → S) : M S () :=
  λ s, {| result := Ok (); state := f s; effects := [] |}.

(** [try { body } catch (error) { handler }] *)
Definition try_catch {S A} (body : M S A) (handler : Exn → M S A) : M S A :=
  λ s,
    match body s with
    | {| result := Ok a; state := s1; effects := l1 |} =>
        {| result := Ok a; state := s1; effects := l1 |}
    | {| result := Throw e; state := s1; effects := l1 |} =>
        match handler e s1 with
        | {| result := r; state := s2; effects := l2 |} =>
            {| result := r; state := s2; effects := l1 ++ l2 |}
        end
    end.

(** [try { body } finally { final }], for a [final] that does not throw. *)
Definition try_finally {S A} (body : M S A) (final : M S ()) : M S A :=
  λ s,
    match body s with
    | {| result := r; state := s1; effects := l1 |} =>
        match final s1 with
        | {| result := _; state := s2; effects := l2 |} =>
            {| result := r; state := s2; effects := l1 ++ l2 |}
        end
    end.

(** [for (const x of xs) { body }] *)
Fixpoint for_of {S A} (xs : list A) (body : A → M S ()) : M S () :=
  match xs with
  | [] => mret ()
  | x :: rest => body x ;; for_of rest body
  end.

(** Run a method of a component inside the object that holds it. *)
Definition zoom {S T A} (proj : T → S) (upd : S → T → T) (m : M S A) : M T A :=
  λ t,
    match m (proj t) with
    | {| result := r; state := s; effects := l |} =>
        {| result := r; state := upd s t; effects := l |}
    end.

Definition info {S} (msg : Message) : M S () := emit (Emit LoggerInfo msg).
Definition warn {S} (msg : Message) : M S () := emit (Emit LoggerWarn msg).

(** ** class Queue *)

Module Queue.
Record t := {
  queueName : string;
  queue : list EventLog;
  gasModifier : Z;
  lock : bool
}.

Definition new (queueName : string) (gasModifier : Z) : t :=
  {| queueName := queueName; queue := []; gasModifier := gasModifier;
     lock := false |}.

Definition set_queue (l : list EventLog) (q : t) : t :=
  {| queueName := queueName q; queue := l; gasModifier := gasModifier q;
     lock := lock q |}.

Definition set_lock (b : bool) (q : t) : t :=
  {| queueName := queueName q; queue := queue q;
     gasModifier := gasModifier q; lock := b |}.

(** [this.queue.some(e => e.transactionHash === event.transactionHash)] *)
Definition some_same_hash (event : EventLog) (l : list EventLog) : bool :=
  existsb (λ e, String.eqb (transactionHash e) (transactionHash event)) l.

Definition push (event : EventLog) : M t () :=
  q ← get;
  if negb (some_same_hash event (queue q)) then
    modify (set_queue (queue q ++ [event])) ;;
    info (PushedIntoQueue (blockNumber event) (queueName q))
  else
    warn (NotPushedDuplicate (blockNumber event) (queueName q)).

Definition shift : M t (option EventLog) :=
  q ← get;
  match queue q with
  | [] => mret None
  | e :: rest => modify (set_queue rest) ;; mret (Some e)
  end.

Definition getFirst : M t (option EventLog) :=
  q ← get; mret (head (queue q)).

Definition length : M t Z :=
  q ← get; mret (Z.of_nat (List.length (queue q))).

(** The transaction hashes held by the queue, in order. *)
Definition hashes (q : t) : list string := transactionHash <$> queue q.
End Queue.

(** ** class BotStateManagerFS *)

Module BotStateManagerFS.
(** [fs] is the file system the object reads and writes through the [fs]
    module: the parsed content of each existing file. *)
Record t := {
  _stateFile : string;
  _lastBlock : Z;
  _sentTransactions : gmap string Z;
  _failedTransactions : gmap string Z;
  fs : gmap string State.t
}.

Definition set_lastBlock (n : Z) (m : t) : t :=
  {| _stateFile := _stateFile m; _lastBlock := n;
     _sentTransactions := _sentTransactions m;
     _failedTransactions := _failedTransactions m; fs := fs m |}.

Definition set_sentTransactions (s : gmap string Z) (m : t) : t :=
  {| _stateFile := _stateFile m; _lastBlock := _lastBlock m;
     _sentTransactions := s;
     _failedTransactions := _failedTransactions m; fs := fs m |}.

Definition set_failedTransactions (f : gmap string Z) (m : t) : t :=
  {| _stateFile := _stateFile m; _lastBlock := _lastBlock m;
     _sentTransactions := _sentTransactions m;
     _failedTransactions := f; fs := fs m |}.

Definition set_stateFile (path : string) (m : t) : t :=
  {| _stateFile := path; _lastBlock := _lastBlock m;
     _sentTransactions := _sentTransactions m;
     _failedTransactions := _failedTransactions m; fs := fs m |}.

Definition set_fs (d : gmap string State.t) (m : t) : t :=
  {| _stateFile := _stateFile m; _lastBlock := _lastBlock m;
     _sentTransactions := _sentTransactions m;
     _failedTransactions := _failedTransactions m; fs := d |}.

(** The object [saveState] serialises. *)
Definition snapshot (m : t) : State.t :=
  {| State.lastBlock := _lastBlock m;
     State.sentTransactions := Some (_sentTransactions m);
     State.failedTransactions := Some (_failedTransactions m) |}.

Definition saveState : M t () :=
  m ← get;
  modify (set_fs (<[_stateFile m := snapshot m]> (fs m))) ;;
  emit (WriteFileSync (_stateFile m) (snapshot m)).

Definition constructor (configuration : Configuration.t) : M t () :=
  modify (set_lastBlock (Configuration.lastBlock configuration)) ;;
  modify (set_sentTransactions ∅) ;;
  modify (set_failedTransactions ∅) ;;
  modify (set_stateFile (Configuration.stateFile configuration)) ;;
  m ← get;
  match fs m !! _stateFile m with
  | Some data =>
      (if State.lastBlock data >=? Configuration.lastBlock configuration
       then modify (set_lastBlock (State.lastBlock data))
       else mret ()) ;;
      modify (set_sentTransactions (default ∅ (State.sentTransactions data))) ;;
      modify (set_failedTransactions (default ∅ (State.failedTransactions data)))
  | None => mret ()
  end ;;
  saveState.

(** [new BotStateManagerFS(configuration)]: the constructor run on a blank
    object that sees the file system [disk] of files that parse;
    [construct] below runs it on raw files, where parsing can throw. *)
Definition new (configuration : Configuration.t) (disk : gmap string State.t)
  : Outcome t () :=
  constructor configuration
    {| _stateFile := EmptyString; _lastBlock := 0;
       _sentTransactions := ∅; _failedTransactions := ∅; fs := disk |}.

Definition getLastBlock : M t Z :=
  m ← get; mret (_lastBlock m).

Definition addSentTransaction (pingTxHash : string) (blockNumber : Z) : M t () :=
  m ← get;
  modify (set_sentTransactions (<[pingTxHash := blockNumber]> (_sentTransactions m))) ;;
  saveState.

Definition addFailedTransaction (pingTxHash : string) (blockNumber : Z) : M t () :=
  m ← get;
  modify (set_failedTransactions (<[pingTxHash := blockNumber]> (_failedTransactions m))) ;;
  saveState.

(** The [for ... in] loop deletes every entry whose block number is below
    the bound and keeps the others. *)
Definition clearTransactionsBeforeBlock (blockNumber : Z) : M t () :=
  m ← get;
  modify (set_sentTransactions
            (filter (λ kv, ¬ (kv.2 < blockNumber)) (_sentTransactions m))) ;;
  saveState.

Definition setLastBlock (blockNumber : Z) : M t () :=
  modify (set_lastBlock blockNumber) ;;
  saveState.

Definition getSentTransactions : M t (gmap string Z) :=
  m ← get; mret (_sentTransactions m).
End BotStateManagerFS.

(** ** The state file as text *)

(** What a file holds: the JSON text of a [State] object, or text that
    [JSON.parse] rejects (a file cut short by a crash during a write, for
    one). *)
Inductive FileContent :=
| JsonState (data : State.t)
| NotJson (text : string).

(** [JSON.parse(fs.readFileSync(path, 'utf8'))] *)
Definition parseState (c : FileContent) : Result State.t :=
  match c with
  | JsonState data => Ok data
  | NotJson text => Throw (SyntaxError text)
  end.

(** The files that parse, as the state manager sees them. *)
Definition parsed (disk : gmap string FileContent) : gmap string State.t :=
  omap (λ c, match parseState c with Ok data => Some data | Throw _ => None end)
       disk.

(** [new BotStateManagerFS(configuration)] on raw files.  The constructor
    has set its four fields when it reads the state file; if [JSON.parse]
    throws there, the constructor throws with it and [saveState] is not
    reached.  Otherwise it goes on as [BotStateManagerFS.new] does. *)
Definition construct (configuration : Configuration.t)
    (disk : gmap string FileContent) : Outcome BotStateManagerFS.t () :=
  match parseState <$> disk !! Configuration.stateFile configuration with
  | Some (Throw error) =>
      {| result := Throw error;
         state :=
           {| BotStateManagerFS._stateFile :=
                Configuration.stateFile configuration;
              BotStateManagerFS._lastBlock :=
                Configuration.lastBlock configuration;
              BotStateManagerFS._sentTransactions := ∅;
              BotStateManagerFS._failedTransactions := ∅;
              BotStateManagerFS.fs := parsed disk |};
         effects := [] |}
  | _ => BotStateManagerFS.new configuration (parsed disk)
  end.

(** ** What the outside world answers *)

(** [await tx.wait()]: it throws, or yields [null], or yields a receipt
    whose [status] is a number or [null]. *)
Inductive WaitOutcome :=
| WaitThrows (error : Exn)
| ReceiptNull
| Receipt (status : option Z).

(** [await this.contract.pong(txHash, { gasLimit })]: it throws, or yields
    a transaction response with its hash, which is then waited for. *)
Inductive PongOutcome :=
| PongThrows (error : Exn)
| PongTx (pongHash : string) (w : WaitOutcome).

(** [await this.contract.queryFilter('Ping', from, to)] *)
Inductive QueryOutcome :=
| QueryThrows (error : Exn)
| QueryEvents (events : list EventLog).

(** The one answer on which [sendPong] returns normally. *)
Definition confirmed (o : PongOutcome) : bool :=
  match o with
  | PongTx _ (Receipt (Some 1)) => true
  | _ => false
  end.

(** ** class Bot *)

Module Bot.
Record t := {
  eventQueue : Queue.t;
  forceEventQueue : Queue.t;
  defaultGasLimit : Z;
  botStateManager : BotStateManagerFS.t
}.

(** A reference to one of the two queue objects of the bot. *)
Inductive QueueRef := EventQueue | ForceEventQueue.

#[global] Instance QueueRef_eq_dec : EqDecision QueueRef.
Proof. solve_decision. Defined.

Definition deref (r : QueueRef) (b : t) : Queue.t :=
  match r with
  | EventQueue => eventQueue b
  | ForceEventQueue => forceEventQueue b
  end.

Definition assign (r : QueueRef) (q : Queue.t) (b : t) : t :=
  match r with
  | EventQueue =>
      {| eventQueue := q; forceEventQueue := forceEventQueue b;
         defaultGasLimit := defaultGasLimit b;
         botStateManager := botStateManager b |}
  | ForceEventQueue =>
      {| eventQueue := eventQueue b; forceEventQueue := q;
         defaultGasLimit := defaultGasLimit b;
         botStateManager := botStateManager b |}
  end.

Definition set_botStateManager (m : BotStateManagerFS.t) (b : t) : t :=
  {| eventQueue := eventQueue b; forceEventQueue := forceEventQueue b;
     defaultGasLimit := defaultGasLimit b; botStateManager := m |}.

(** [queue.method(...)] and [this.botStateManager.method(...)] *)
Definition on_queue {A} (r : QueueRef) (m : M Queue.t A) : M t A :=
  zoom (deref r) (assign r) m.
Definition on_manager {A} (m : M BotStateManagerFS.t A) : M t A :=
  zoom botStateManager set_botStateManager m.

Definition new (configuration : Configuration.t)
    (eventQueue forceEventQueue : Queue.t)
    (botStateManager : BotStateManagerFS.t) : t :=
  {| eventQueue := eventQueue; forceEventQueue := forceEventQueue;
     defaultGasLimit := Configuration.defaultGasLimit configuration;
     botStateManager := botStateManager |}.

(** The listener that [init] registers with [this.contract.on('Ping', _)];
    [currentBlock] is the head block that [init] read. *)
Definition onPing (currentBlock : Z) (event : EventLog) : M t () :=
  if blockNumber event >? currentBlock then
    info (CatchingNewPing (blockNumber event)) ;;
    on_queue EventQueue (Queue.push event)
  else mret ().

Definition handleErrorPong (event : EventLog) (r : QueueRef) : M t () :=
  queue ← on_queue r get;
  if String.eqb (Queue.queueName queue) COMMON_PING_EVENT_QUEUE then
    on_queue ForceEventQueue (Queue.push event)
  else
    on_manager (BotStateManagerFS.addFailedTransaction
                  (transactionHash event) (blockNumber event)).

(** What [sendPong] does once [this.contract.pong] has answered. *)
Definition afterPong (o : PongOutcome) (event : EventLog) : M t () :=
  let txHash := transactionHash event in
  let blockNumber := blockNumber event in
  match o with
  | PongThrows error => throw error
  | PongTx pongHash w =>
      info (PongSentFor txHash pongHash) ;;
      emit (TxWait pongHash) ;;
      match w with
      | WaitThrows error => throw error
      | ReceiptNull =>
          throw (TypeError "Cannot read properties of null (reading 'status')")
      | Receipt status =>
          if decide (status = Some 1) then
            info (PongConfirmed blockNumber) ;;
            on_manager (BotStateManagerFS.addSentTransaction txHash blockNumber)
          else throw (Error "Transaction failed")
      end
  end.

Definition sendPong_catch (event : EventLog) (error : Exn) : M t () :=
  emit (Emit ConsoleError (SentTxFailed error (transactionHash event))) ;;
  throw error.

Definition sendPong (o : PongOutcome) (event : EventLog) (gasLimit : Z) : M t () :=
  try_catch
    (emit (ContractPong (transactionHash event) gasLimit) ;;
     afterPong o event)
    (sendPong_catch event).

Definition queueHandle_catch (event : EventLog) (r : QueueRef) (error : Exn)
  : M t () :=
  emit (Emit ConsoleLog (ErrorSendingPong (transactionHash event) error)) ;;
  handleErrorPong event r.

Definition unlock (r : QueueRef) : M t () :=
  on_queue r (modify (Queue.set_lock false)).

Definition queueHandle (o : PongOutcome) (r : QueueRef) : M t () :=
  queue ← on_queue r get;
  if Queue.lock queue then mret ()
  else
    on_queue r (modify (Queue.set_lock true)) ;;
    shifted ← on_queue r Queue.shift;
    match shifted with
    | None => unlock r
    | Some event =>
        len ← on_queue r Queue.length;
        info (ProcessingEvent (Queue.queueName queue) len
                (transactionHash event) (blockNumber event)) ;;
        try_finally
          (try_catch
             (b ← get;
              sendPong o event (defaultGasLimit b * Queue.gasModifier queue))
             (queueHandle_catch event r))
          (unlock r)
    end.

(** [queueHandle] cut at its [await]: [queueHandle_begin] runs up to the
    call of [this.contract.pong] and yields the event whose pong is in
    flight; [queueHandle_settle] runs the rest once the answer is in.
    Other activities of the event loop run in between. *)
Definition queueHandle_begin (r : QueueRef) : M t (option EventLog) :=
  queue ← on_queue r get;
  if Queue.lock queue then mret None
  else
    on_queue r (modify (Queue.set_lock true)) ;;
    shifted ← on_queue r Queue.shift;
    match shifted with
    | None => unlock r ;; mret None
    | Some event =>
        len ← on_queue r Queue.length;
        info (ProcessingEvent (Queue.queueName queue) len
                (transactionHash event) (blockNumber event)) ;;
        b ← get;
        emit (ContractPong (transactionHash event)
                (defaultGasLimit b * Queue.gasModifier queue)) ;;
        mret (Some event)
    end.

Definition queueHandle_settle (o : PongOutcome) (event : EventLog) (r : QueueRef)
  : M t () :=
  try_finally
    (try_catch
       (try_catch (afterPong o event) (sendPong_catch event))
       (queueHandle_catch event r))
    (unlock r).

(** The body of the loop of [catchMissedEventsFromTo]. *)
Definition enqueueMissed (event : EventLog) : M t () :=
  info (FoundMissedPing (transactionHash event) (blockNumber event)) ;;
  sent ← on_manager BotStateManagerFS.getSentTransactions;
  match sent !! transactionHash event with
  | None => on_queue EventQueue (Queue.push event)
  | Some _ => info (AlreadySent (transactionHash event) (blockNumber event))
  end.

(** The query is issued and answered within this one computation: the
    statements before the [await] read the arguments only. *)
Definition catchMissedEventsFromTo (q : QueryOutcome)
    (startBlockNumber endBlockNumber : Z) : M t () :=
  (if endBlockNumber >? startBlockNumber then
     info (CheckingMissed (startBlockNumber + 1) endBlockNumber) ;;
     emit (QueryFilter (startBlockNumber + 1) endBlockNumber) ;;
     match q with
     | QueryThrows error => throw error
     | QueryEvents events =>
         info (FoundEvents (Z.of_nat (List.length events))) ;;
         for_of events enqueueMissed
     end
   else mret ()) ;;
  on_manager (BotStateManagerFS.setLastBlock endBlockNumber) ;;
  on_manager (BotStateManagerFS.clearTransactionsBeforeBlock endBlockNumber).

(** [init], up to the timers: [currentBlock] is the answer of
    [provider.getBlockNumber()].  The listener it registers is [onPing
    currentBlock]; the timers it sets fire [queueHandle] on each queue and
    [catchMissedEventsFromTo] again. *)
Definition init (currentBlock : Z) (q : QueryOutcome) : M t () :=
  lastBlock ← on_manager BotStateManagerFS.getLastBlock;
  info (BotStarted currentBlock) ;;
  catchMissedEventsFromTo q lastBlock currentBlock.

(** Shorthands for the observations of the properties below. *)
Definition lastBlock (b : t) : Z :=
  BotStateManagerFS._lastBlock (botStateManager b).
Definition sent (b : t) : gmap string Z :=
  BotStateManagerFS._sentTransactions (botStateManager b).
Definition failed (b : t) : gmap string Z :=
  BotStateManagerFS._failedTransactions (botStateManager b).
End Bot.

(** ** The program and its event loop *)

(** The bottom of [index.ts]: the state manager is built on the file system
    it finds, the two queues are new. *)
Definition bot (disk : gmap string State.t) : Bot.t :=
  Bot.new configuration
    (Queue.new COMMON_PING_EVENT_QUEUE 1)
    (Queue.new FORCE_PING_EVENT_QUEUE 2)
    (state (BotStateManagerFS.new configuration disk)).

(** The running system: the bot, the event whose pong is in flight for each
    queue (the suspended call of [queueHandle]), and the effects so far. *)
Record System := {
  the_bot : Bot.t;
  inFlightCommon : option EventLog;
  inFlightForce : option EventLog;
  history : list Effect
}.

Definition inFlight (r : Bot.QueueRef) (σ : System) : option EventLog :=
  match r with
  | Bot.EventQueue => inFlightCommon σ
  | Bot.ForceEventQueue => inFlightForce σ
  end.

Definition set_inFlight (r : Bot.QueueRef) (e : option EventLog) (σ : System)
  : System :=
  match r with
  | Bot.EventQueue =>
      {| the_bot := the_bot σ; inFlightCommon := e;
         inFlightForce := inFlightForce σ; history := history σ |}
  | Bot.ForceEventQueue =>
      {| the_bot := the_bot σ; inFlightCommon := inFlightCommon σ;
         inFlightForce := e; history := history σ |}
  end.

(** Run a method of the bot as one turn of the event loop. *)
Definition turn {A} (m : M Bot.t A) (σ : System) : Result A * System :=
  let o := m (the_bot σ) in
  (result o,
   {| the_bot := state o; inFlightCommon := inFlightCommon σ;
      inFlightForce := inFlightForce σ;
      history := history σ ++ effects o |}).

(** What can happen in the event loop once [init] has registered the
    listener: the subscription delivers an event, a pass of
    [catchMissedEventsFromTo] gets its answer, a timer fires [queueHandle],
    or the pong in flight for a queue settles. *)
Inductive Step :=
| PingEvent (event : EventLog)
| CatchMissed (startBlockNumber endBlockNumber : Z) (q : QueryOutcome)
| Tick (r : Bot.QueueRef)
| Settle (r : Bot.QueueRef) (o : PongOutcome).

Definition step (currentBlock : Z) (s : Step) (σ : System) : System :=
  match s with
  | PingEvent event => (turn (Bot.onPing currentBlock event) σ).2
  | CatchMissed a b q => (turn (Bot.catchMissedEventsFromTo q a b) σ).2
  | Tick r =>
      let '(res, σ') := turn (Bot.queueHandle_begin r) σ in
      match res with
      | Ok (Some event) => set_inFlight r (Some event) σ'
      | _ => σ'
      end
  | Settle r o =>
      match inFlight r σ with
      | Some event =>
          set_inFlight r None (turn (Bot.queueHandle_settle o event r) σ).2
      | None => σ
      end
  end.

Definition run (currentBlock : Z) (steps : list Step) (σ : System) : System :=
  foldl (λ σ s, step currentBlock s σ) σ steps.

Definition boot (disk : gmap string State.t) : System :=
  {| the_bot := bot disk; inFlightCommon := None; inFlightForce := None;
     history := effects (BotStateManagerFS.new configuration disk) |}.

(** ** Vocabulary of the properties *)

(** The bot after [unlock r], after a method of the state manager, and after
    [Queue.push] on one of its queues. *)
Definition unlocked (r : Bot.QueueRef) (b : Bot.t) : Bot.t :=
  Bot.assign r (Queue.set_lock false (Bot.deref r b)) b.

Definition with_manager (f : M BotStateManagerFS.t ()) (b : Bot.t) : Bot.t :=
  Bot.set_botStateManager (state (f (Bot.botStateManager b))) b.

Definition pushed (r : Bot.QueueRef) (event : EventLog) (b : Bot.t) : Bot.t :=
  Bot.assign r (state (Queue.push event (Bot.deref r b))) b.

(** The events of an answer that have no entry in [sentTransactions]. *)
Definition missed (sent : gmap string Z) (events : list EventLog) : list EventLog :=
  filter (λ e, sent !! transactionHash e = None) events.

Definition push_all (events : list EventLog) (q : Queue.t) : Queue.t :=
  foldl (λ q e, state (Queue.push e q)) q events.

(** The events a pass of [catchMissedEventsFromTo] pushes, in order. *)
Definition enqueued (q : QueryOutcome) (a b : Z) (sent : gmap string Z)
  : list EventLog :=
  if b >? a then
    match q with
    | QueryEvents events => missed sent events
    | QueryThrows _ => []
    end
  else [].

(** A pass completes unless its query throws. *)
Definition completes (q : QueryOutcome) (a b : Z) : bool :=
  if b >? a then
    match q with QueryEvents _ => true | QueryThrows _ => false end
  else true.

(** The queues carry the names the program gives them. *)
Definition wired (b : Bot.t) : Prop :=
  Queue.queueName (Bot.eventQueue b) = COMMON_PING_EVENT_QUEUE ∧
  Queue.queueName (Bot.forceEventQueue b) = FORCE_PING_EVENT_QUEUE.

(** No queue holds two events with one transaction hash. *)
Definition distinct (b : Bot.t) : Prop :=
  ∀ r, NoDup (Queue.hashes (Bot.deref r b)).

(** The number of events of a queue that carry a given hash. *)
Definition copies (h : string) (q : Queue.t) : nat :=
  List.length (filter (λ e, transactionHash e = h) (Queue.queue q)).

(** A step that hands the bot an event with the given hash from outside. *)
Definition delivers (h : string) (s : Step) : bool :=
  match s with
  | PingEvent event => bool_decide (transactionHash event = h)
  | CatchMissed _ _ (QueryEvents events) =>
      bool_decide (h ∈ (transactionHash <$> events))
  | _ => false
  end.

(** The hash is in no queue and no pong for it is in flight. *)
Definition absent (h : string) (σ : System) : Prop :=
  (∀ r, h ∉ Queue.hashes (Bot.deref r (the_bot σ))) ∧
  (∀ r e, inFlight r σ = Some e → transactionHash e ≠ h).

(** ** Concrete data for the examples *)

Definition ping1 : EventLog :=
  {| transactionHash := "0xe1"; blockNumber := 7979050; index := 0 |}.
Definition ping2 : EventLog :=
  {| transactionHash := "0xe2"; blockNumber := 7979120; index := 0 |}.
Definition ping2' : EventLog :=
  {| transactionHash := "0xe2"; blockNumber := 7979120; index := 1 |}.

(** A state file left by an earlier run: block 7979100 reached, the pong
    for [ping1] sent. *)
Definition saved : State.t :=
  {| State.lastBlock := 7979100;
     State.sentTransactions := Some {["0xe1" := 7979050]};
     State.failedTransactions := Some ∅ |}.
Definition disk1 : gmap string State.t := {["lastBlock.json" := saved]}.

Definition rejected : PongOutcome := PongThrows (Error "insufficient funds").
Definition reverted : PongOutcome := PongTx "0xf0" (Receipt (Some 0)).
Definition mined : PongOutcome := PongTx "0xf1" (Receipt (Some 1)).

(** Every pass of the run has, in the state in which its answer arrives
    and it stores its end block, an end block that is not below the stored
    lastBlock. *)
Fixpoint advancing (currentBlock : Z) (steps : list Step) (σ : System) : bool :=
  match steps with
  | [] => true
  | s :: rest =>
      match s with
      | CatchMissed _ b _ => Bot.lastBlock (the_bot σ) <=? b
      | _ => true
      end
      && advancing currentBlock rest (step currentBlock s σ)
  end.

(** ** Vocabulary of the further properties *)

Definition is_log (e : Effect) : bool :=
  match e with Emit _ _ => true | _ => false end.

(** The state file holds what [saveState] would write now. *)
Definition synced (m : BotStateManagerFS.t) : Prop :=
  BotStateManagerFS.fs m !! BotStateManagerFS._stateFile m =
  Some (BotStateManagerFS.snapshot m).

(** [shift] called [n] times: the events it returned, in order, and the
    queue it left. *)
Fixpoint shift_n (n : nat) (q : Queue.t) : list EventLog * Queue.t :=
  match n with
  | O => ([], q)
  | S n' =>
      match Queue.shift q with
      | {| result := Ok (Some e); state := q' |} =>
          let '(l, q'') := shift_n n' q' in (e :: l, q'')
      | {| state := q' |} => ([], q')
      end
  end.

(** The gas settings the program gives the bot and its queues. *)
Definition configured (b : Bot.t) : Prop :=
  Bot.defaultGasLimit b = 50000 ∧
  Queue.gasModifier (Bot.eventQueue b) = 1 ∧
  Queue.gasModifier (Bot.forceEventQueue b) = 2.

(** The gas limit of a pong sent from a queue of the program's bot. *)
Definition gasLimitOf (r : Bot.QueueRef) : Z :=
  match r with
  | Bot.EventQueue => 50000
  | Bot.ForceEventQueue => 100000
  end.

(** Whether a pong for an event taken from the queue is in flight. *)
Definition pongInFlight (r : Bot.QueueRef) (σ : System) : bool :=
  match inFlight r σ with Some _ => true | None => false end.

(** * Properties *)

(** Symbolic execution of the monad, leaving the methods folded. *)
Ltac unfold_M :=
  cbv beta iota zeta delta
    [mbind mret M_bind M_ret throw emit get modify try_catch try_finally zoom
     info warn].

Ltac run_M :=
  cbv beta iota zeta delta
    [mbind mret M_bind M_ret throw emit get modify try_catch try_finally zoom
     info warn Bot.on_queue Bot.on_manager Bot.unlock
     Queue.shift Queue.length Queue.getFirst
     BotStateManagerFS.getSentTransactions BotStateManagerFS.getLastBlock];
  cbn [result state effects app Bot.deref Bot.assign
       Bot.set_botStateManager Bot.eventQueue Bot.forceEventQueue
       Bot.defaultGasLimit Bot.botStateManager
       Queue.queueName Queue.queue Queue.gasModifier Queue.lock
       Queue.set_lock Queue.set_queue].

(** ** The state manager, method by method *)

Section ManagerFacts.
Import BotStateManagerFS.

Lemma saveState_eq (m : t) :
  saveState m =
  {| result := Ok ();
     state := set_fs (<[_stateFile m := snapshot m]> (fs m)) m;
     effects := [WriteFileSync (_stateFile m) (snapshot m)] |}.
Proof. reflexivity. Qed.

Lemma setLastBlock_eq (n : Z) (m : t) :
  setLastBlock n m = saveState (set_lastBlock n m).
Proof. reflexivity. Qed.

Lemma clearTransactionsBeforeBlock_eq (n : Z) (m : t) :
  clearTransactionsBeforeBlock n m =
  saveState (set_sentTransactions
               (filter (λ kv, ¬ (kv.2 < n)) (_sentTransactions m)) m).
Proof. reflexivity. Qed.

Lemma addSentTransaction_eq (h : string) (n : Z) (m : t) :
  addSentTransaction h n m =
  saveState (set_sentTransactions (<[h := n]> (_sentTransactions m)) m).
Proof. reflexivity. Qed.

Lemma addFailedTransaction_eq (h : string) (n : Z) (m : t) :
  addFailedTransaction h n m =
  saveState (set_failedTransactions (<[h := n]> (_failedTransactions m)) m).
Proof. reflexivity. Qed.

(** What is left in [sentTransactions] after the clearing loop. *)
Lemma cleared_lookup (n : Z) (sent : gmap string Z) (h : string) (v : Z) :
  filter (λ kv : string * Z, ¬ (kv.2 < n)) sent !! h = Some v ↔
  sent !! h = Some v ∧ n ≤ v.
Proof.
  rewrite map_lookup_filter_Some. simpl. split; intros [? ?]; split; auto; lia.
Qed.
End ManagerFacts.

(** ** The queue, method by method *)

Section QueueFacts.
Import Queue.

Lemma some_same_hash_spec (event : EventLog) (l : list EventLog) :
  some_same_hash event l = true ↔
  transactionHash event ∈ (transactionHash <$> l).
Proof.
  unfold some_same_hash. rewrite existsb_exists, list_elem_of_fmap.
  split.
  - intros (e & Hin & Heq). apply String.eqb_eq in Heq.
    exists e. split; [congruence | by apply list_elem_of_In].
  - intros (e & Heq & Hin). exists e. split; [by apply list_elem_of_In |].
    apply String.eqb_eq. congruence.
Qed.

Lemma push_eq (event : EventLog) (q : t) :
  push event q =
  if some_same_hash event (queue q) then
    {| result := Ok (); state := q;
       effects := [Emit LoggerWarn
                     (NotPushedDuplicate (blockNumber event) (queueName q))] |}
  else
    {| result := Ok (); state := set_queue (queue q ++ [event]) q;
       effects := [Emit LoggerInfo
                     (PushedIntoQueue (blockNumber event) (queueName q))] |}.
Proof.
  unfold push. unfold_M. destruct (some_same_hash event (queue q)); reflexivity.
Qed.

Lemma push_result (event : EventLog) (q : t) : result (push event q) = Ok ().
Proof. rewrite push_eq. by destruct (some_same_hash _ _). Qed.

Lemma push_queueName (event : EventLog) (q : t) :
  queueName (state (push event q)) = queueName q.
Proof. rewrite push_eq. by destruct (some_same_hash _ _). Qed.

Lemma push_gasModifier (event : EventLog) (q : t) :
  gasModifier (state (push event q)) = gasModifier q.
Proof. rewrite push_eq. by destruct (some_same_hash _ _). Qed.

Lemma push_lock (event : EventLog) (q : t) :
  lock (state (push event q)) = lock q.
Proof. rewrite push_eq. by destruct (some_same_hash _ _). Qed.

Lemma push_hashes (event : EventLog) (q : t) :
  hashes (state (push event q)) =
  if some_same_hash event (queue q) then hashes q
  else (hashes q ++ [transactionHash event])%list.
Proof.
  rewrite push_eq. destruct (some_same_hash _ _); [reflexivity |].
  unfold hashes. simpl. by rewrite fmap_app.
Qed.

Lemma push_NoDup (event : EventLog) (q : t) :
  NoDup (hashes q) → NoDup (hashes (state (push event q))).
Proof.
  intros Hnd. rewrite push_hashes.
  destruct (some_same_hash event (queue q)) eqn:Hs; [done |].
  apply NoDup_app. split_and!; [done | | apply NoDup_singleton].
  intros h Hh Hin. apply list_elem_of_singleton in Hin. subst h.
  apply some_same_hash_spec in Hh. congruence.
Qed.

(** Pushing an event puts no other hash in the queue. *)
Lemma push_elem_of (event : EventLog) (q : t) (h : string) :
  h ∈ hashes (state (push event q)) ↔ h ∈ hashes q ∨ h = transactionHash event.
Proof.
  rewrite push_hashes. destruct (some_same_hash event (queue q)) eqn:Hs.
  - apply some_same_hash_spec in Hs. split; [auto |].
    intros [? | ->]; done.
  - rewrite elem_of_app, list_elem_of_singleton. done.
Qed.

Lemma shift_eq (q : t) :
  shift q =
  match queue q with
  | [] => {| result := Ok None; state := q; effects := [] |}
  | e :: rest =>
      {| result := Ok (Some e); state := set_queue rest q; effects := [] |}
  end.
Proof. unfold shift. unfold_M. by destruct (queue q). Qed.
End QueueFacts.

(** A hash that occurs among pairwise distinct hashes is carried by one
    event. *)
Lemma filter_hash_absent (h : string) (l : list EventLog) :
  h ∉ (transactionHash <$> l) →
  filter (λ e, transactionHash e = h) l = [].
Proof.
  induction l as [|e l IH]; [done |].
  rewrite fmap_cons, not_elem_of_cons, filter_cons. intros [Hne Hnin].
  rewrite decide_False by done. by apply IH.
Qed.

Lemma copies_NoDup (h : string) (q : Queue.t) :
  NoDup (Queue.hashes q) → h ∈ Queue.hashes q → copies h q = 1%nat.
Proof.
  unfold copies, Queue.hashes. induction (Queue.queue q) as [|e l IH].
  - intros _ Hin. by apply elem_of_nil in Hin.
  - rewrite fmap_cons, NoDup_cons, elem_of_cons, filter_cons.
    intros [Hne Hnd] Hin. case_decide as He.
    + subst h. by rewrite filter_hash_absent.
    + destruct Hin as [-> | Hin]; [done | by apply IH].
Qed.

(** ** The bot, method by method *)

Section BotFacts.
Import Bot.

Lemma deref_assign (r r' : QueueRef) (q : Queue.t) (b : t) :
  deref r (assign r' q b) = if decide (r = r') then q else deref r b.
Proof. by destruct r, r'. Qed.

Lemma unlock_eq (r : QueueRef) (b : t) :
  unlock r b = {| result := Ok (); state := unlocked r b; effects := [] |}.
Proof. reflexivity. Qed.

Lemma on_queue_push (r : QueueRef) (event : EventLog) (b : t) :
  on_queue r (Queue.push event) b =
  {| result := Ok (); state := pushed r event b;
     effects := effects (Queue.push event (deref r b)) |}.
Proof.
  unfold on_queue, zoom, pushed. rewrite push_eq.
  by destruct (Queue.some_same_hash _ _).
Qed.

Lemma on_manager_saveState (f : M BotStateManagerFS.t ()) (b : t) :
  (∃ m, f (botStateManager b) = BotStateManagerFS.saveState m) →
  on_manager f b =
  {| result := Ok (); state := with_manager f b;
     effects := effects (f (botStateManager b)) |}.
Proof.
  intros [m Hm]. unfold on_manager, zoom, with_manager. by rewrite Hm.
Qed.

Lemma on_manager_addSent (h : string) (n : Z) (b : t) :
  on_manager (BotStateManagerFS.addSentTransaction h n) b =
  {| result := Ok ();
     state := with_manager (BotStateManagerFS.addSentTransaction h n) b;
     effects := effects (BotStateManagerFS.addSentTransaction h n
                           (botStateManager b)) |}.
Proof. apply on_manager_saveState. eexists. apply addSentTransaction_eq. Qed.

Lemma on_manager_addFailed (h : string) (n : Z) (b : t) :
  on_manager (BotStateManagerFS.addFailedTransaction h n) b =
  {| result := Ok ();
     state := with_manager (BotStateManagerFS.addFailedTransaction h n) b;
     effects := effects (BotStateManagerFS.addFailedTransaction h n
                           (botStateManager b)) |}.
Proof. apply on_manager_saveState. eexists. apply addFailedTransaction_eq. Qed.

Lemma on_manager_setLastBlock (n : Z) (b : t) :
  on_manager (BotStateManagerFS.setLastBlock n) b =
  {| result := Ok ();
     state := with_manager (BotStateManagerFS.setLastBlock n) b;
     effects := effects (BotStateManagerFS.setLastBlock n (botStateManager b)) |}.
Proof. apply on_manager_saveState. eexists. apply setLastBlock_eq. Qed.

Lemma on_manager_clear (n : Z) (b : t) :
  on_manager (BotStateManagerFS.clearTransactionsBeforeBlock n) b =
  {| result := Ok ();
     state := with_manager (BotStateManagerFS.clearTransactionsBeforeBlock n) b;
     effects := effects (BotStateManagerFS.clearTransactionsBeforeBlock n
                           (botStateManager b)) |}.
Proof.
  apply on_manager_saveState. eexists. apply clearTransactionsBeforeBlock_eq.
Qed.

Lemma onPing_state (currentBlock : Z) (event : EventLog) (b : t) :
  state (onPing currentBlock event b) =
  if blockNumber event >? currentBlock then pushed EventQueue event b else b.
Proof.
  unfold onPing. destruct (blockNumber event >? currentBlock); [|reflexivity].
  unfold_M. by rewrite on_queue_push.
Qed.

Lemma handleErrorPong_eq (event : EventLog) (r : QueueRef) (b : t) :
  handleErrorPong event r b =
  if String.eqb (Queue.queueName (deref r b)) COMMON_PING_EVENT_QUEUE
  then on_queue ForceEventQueue (Queue.push event) b
  else on_manager (BotStateManagerFS.addFailedTransaction
                     (transactionHash event) (blockNumber event)) b.
Proof.
  unfold handleErrorPong, mbind, M_bind. unfold on_queue at 1.
  unfold zoom at 1, get.
  destruct b, r;
    cbn [deref assign eventQueue forceEventQueue defaultGasLimit botStateManager];
    (destruct (String.eqb _ _);
     [rewrite !on_queue_push | rewrite !on_manager_addFailed]; reflexivity).
Qed.

Lemma handleErrorPong_state (event : EventLog) (r : QueueRef) (b : t) :
  state (handleErrorPong event r b) =
  if String.eqb (Queue.queueName (deref r b)) COMMON_PING_EVENT_QUEUE
  then pushed ForceEventQueue event b
  else with_manager (BotStateManagerFS.addFailedTransaction
                       (transactionHash event) (blockNumber event)) b.
Proof.
  rewrite handleErrorPong_eq, on_queue_push, on_manager_addFailed.
  by destruct (String.eqb _ _).
Qed.

Lemma handleErrorPong_result (event : EventLog) (r : QueueRef) (b : t) :
  result (handleErrorPong event r b) = Ok ().
Proof.
  rewrite handleErrorPong_eq, on_queue_push, on_manager_addFailed.
  by destruct (String.eqb _ _).
Qed.

Lemma afterPong_result (o : PongOutcome) (event : EventLog) (b : t) :
  result (afterPong o event b) =
  match o with
  | PongThrows error => Throw error
  | PongTx _ (WaitThrows error) => Throw error
  | PongTx _ ReceiptNull =>
      Throw (TypeError "Cannot read properties of null (reading 'status')")
  | PongTx _ (Receipt status) =>
      if decide (status = Some 1) then Ok ()
      else Throw (Error "Transaction failed")
  end.
Proof.
  unfold afterPong. destruct o as [|? []]; try reflexivity.
  unfold_M. case_decide; [|reflexivity]. by rewrite on_manager_addSent.
Qed.

Lemma afterPong_state (o : PongOutcome) (event : EventLog) (b : t) :
  state (afterPong o event b) =
  if confirmed o
  then with_manager (BotStateManagerFS.addSentTransaction
                       (transactionHash event) (blockNumber event)) b
  else b.
Proof.
  unfold afterPong. destruct o as [|? [| |status]]; try reflexivity.
  unfold_M. case_decide as Hs.
  - subst status. by rewrite on_manager_addSent.
  - destruct status as [[| [| |] |]|]; try reflexivity. done.
Qed.

Lemma confirmed_result (o : PongOutcome) (event : EventLog) (b : t) :
  is_throw (result (afterPong o event b)) = negb (confirmed o).
Proof.
  rewrite afterPong_result. destruct o as [|? [| |status]]; try reflexivity.
  case_decide as Hs; [by subst |].
  destruct status as [[| [| |] |]|]; try reflexivity. done.
Qed.

(** [sendPong] issues the call and then runs [afterPong] under its
    [catch]. *)
Lemma sendPong_eq (o : PongOutcome) (event : EventLog) (gasLimit : Z) (b : t) :
  sendPong o event gasLimit b =
  match try_catch (afterPong o event) (sendPong_catch event) b with
  | {| result := r; state := s; effects := l |} =>
      {| result := r; state := s;
         effects := ContractPong (transactionHash event) gasLimit :: l |}
  end.
Proof.
  unfold sendPong, sendPong_catch. unfold_M.
  destruct (afterPong o event b) as [[[]|error] s l]; reflexivity.
Qed.

Lemma sendPong_result (o : PongOutcome) (event : EventLog) (gasLimit : Z) (b : t) :
  result (sendPong o event gasLimit b) = result (afterPong o event b).
Proof.
  rewrite sendPong_eq. unfold sendPong_catch. unfold_M.
  destruct (afterPong o event b) as [[[]|error] s l]; reflexivity.
Qed.

Lemma sendPong_state (o : PongOutcome) (event : EventLog) (gasLimit : Z) (b : t) :
  state (sendPong o event gasLimit b) = state (afterPong o event b).
Proof.
  rewrite sendPong_eq. unfold sendPong_catch. unfold_M.
  destruct (afterPong o event b) as [[[]|error] s l]; reflexivity.
Qed.

Lemma queueHandle_settle_result (o : PongOutcome) (event : EventLog)
    (r : QueueRef) (b : t) :
  result (queueHandle_settle o event r b) = Ok ().
Proof.
  unfold queueHandle_settle, queueHandle_catch, sendPong_catch. unfold_M.
  destruct (afterPong o event b) as [[[]|error] s l]; [reflexivity |].
  pose proof (handleErrorPong_result event r s) as Hr.
  destruct (handleErrorPong event r s) as [r' s' l']. simpl in Hr. subst r'.
  reflexivity.
Qed.

Lemma queueHandle_settle_state (o : PongOutcome) (event : EventLog)
    (r : QueueRef) (b : t) :
  state (queueHandle_settle o event r b) =
  unlocked r (if confirmed o
              then with_manager (BotStateManagerFS.addSentTransaction
                                   (transactionHash event) (blockNumber event)) b
              else state (handleErrorPong event r b)).
Proof.
  pose proof (confirmed_result o event b) as Hc.
  pose proof (afterPong_state o event b) as Hs.
  unfold queueHandle_settle, queueHandle_catch, sendPong_catch. unfold_M.
  destruct (afterPong o event b) as [[[]|error] s l]; simpl in Hc, Hs;
    destruct (confirmed o); try discriminate; subst s; [reflexivity |].
  by destruct (handleErrorPong event r b) as [r' s' l'].
Qed.

Lemma queueHandle_begin_eq (r : QueueRef) (b : t) :
  queueHandle_begin r b =
  let queue := deref r b in
  if Queue.lock queue then {| result := Ok None; state := b; effects := [] |}
  else
    match Queue.queue queue with
    | [] =>
        {| result := Ok None; state := unlocked r b; effects := [] |}
    | event :: rest =>
        {| result := Ok (Some event);
           state := assign r (Queue.set_queue rest (Queue.set_lock true queue)) b;
           effects :=
             [Emit LoggerInfo
                (ProcessingEvent (Queue.queueName queue)
                   (Z.of_nat (List.length rest))
                   (transactionHash event) (blockNumber event));
              ContractPong (transactionHash event)
                (defaultGasLimit b * Queue.gasModifier queue)] |}
    end.
Proof.
  destruct b as [[n1 l1 g1 [|]] [n2 l2 g2 [|]] g m], r; try reflexivity;
    (destruct l1; reflexivity) || (destruct l2; reflexivity).
Qed.

(** [queueHandle] is [queueHandle_begin] followed at once by
    [queueHandle_settle] on the event it took. *)
Lemma queueHandle_split (o : PongOutcome) (r : QueueRef) (b : t) :
  queueHandle o r b =
  match queueHandle_begin r b with
  | {| result := Ok (Some event); state := b1; effects := l1 |} =>
      match queueHandle_settle o event r b1 with
      | {| result := res; state := b2; effects := l2 |} =>
          {| result := res; state := b2; effects := l1 ++ l2 |}
      end
  | {| result := _; state := b1; effects := l1 |} =>
      {| result := Ok (); state := b1; effects := l1 |}
  end.
Proof.
  rewrite queueHandle_begin_eq. cbv zeta. unfold queueHandle.
  destruct b as [[n1 l1 g1 k1] [n2 l2 g2 k2] g m], r; run_M.
  - destruct k1; [reflexivity |]. destruct l1 as [|event rest]; [reflexivity |].
    run_M. rewrite sendPong_eq. unfold queueHandle_settle. run_M.
    destruct (afterPong o event _) as [[[]|error] s l]; [reflexivity |].
    unfold sendPong_catch. run_M.
    destruct (queueHandle_catch event EventQueue error s) as [r' s' l'].
    reflexivity.
  - destruct k2; [reflexivity |]. destruct l2 as [|event rest]; [reflexivity |].
    run_M. rewrite sendPong_eq. unfold queueHandle_settle. run_M.
    destruct (afterPong o event _) as [[[]|error] s l]; [reflexivity |].
    unfold sendPong_catch. run_M.
    destruct (queueHandle_catch event ForceEventQueue error s) as [r' s' l'].
    reflexivity.
Qed.
End BotFacts.

(** ** The pass over missed events *)

Section CatchMissedFacts.
Import Bot.

Lemma push_all_queueName (events : list EventLog) (q : Queue.t) :
  Queue.queueName (push_all events q) = Queue.queueName q.
Proof.
  revert q. induction events as [|e events IH]; intros q; [done |].
  simpl. rewrite IH. apply push_queueName.
Qed.

Lemma push_all_lock (events : list EventLog) (q : Queue.t) :
  Queue.lock (push_all events q) = Queue.lock q.
Proof.
  revert q. induction events as [|e events IH]; intros q; [done |].
  simpl. rewrite IH. apply push_lock.
Qed.

Lemma push_all_gasModifier (events : list EventLog) (q : Queue.t) :
  Queue.gasModifier (push_all events q) = Queue.gasModifier q.
Proof.
  revert q. induction events as [|e events IH]; intros q; [done |].
  simpl. rewrite IH. apply push_gasModifier.
Qed.

Lemma push_all_NoDup (events : list EventLog) (q : Queue.t) :
  NoDup (Queue.hashes q) → NoDup (Queue.hashes (push_all events q)).
Proof.
  revert q. induction events as [|e events IH]; intros q Hq; [done |].
  simpl. apply IH. by apply push_NoDup.
Qed.

Lemma push_all_elem_of (events : list EventLog) (q : Queue.t) (h : string) :
  h ∈ Queue.hashes (push_all events q) ↔
  h ∈ Queue.hashes q ∨ h ∈ (transactionHash <$> events).
Proof.
  revert q. induction events as [|e events IH]; intros q; simpl.
  - rewrite elem_of_nil. tauto.
  - rewrite IH, push_elem_of, elem_of_cons. tauto.
Qed.

Lemma enqueueMissed_eq (event : EventLog) (b : t) :
  ∃ l,
    enqueueMissed event b =
    {| result := Ok ();
       state := match sent b !! transactionHash event with
                | None => pushed EventQueue event b
                | Some _ => b
                end;
       effects := l |}.
Proof.
  unfold enqueueMissed, sent, on_manager, BotStateManagerFS.getSentTransactions.
  unfold_M. destruct b as [q1 q2 g m].
  cbn [botStateManager set_botStateManager].
  destruct (_ !! _); [by eexists |].
  rewrite (on_queue_push EventQueue). by eexists.
Qed.

Lemma for_of_enqueueMissed (events : list EventLog) (b : t) :
  ∃ l,
    for_of events enqueueMissed b =
    {| result := Ok ();
       state := assign EventQueue
                  (push_all (missed (sent b) events) (eventQueue b)) b;
       effects := l |}.
Proof.
  revert b. induction events as [|e events IH]; intros b.
  - exists []. by destruct b.
  - destruct (enqueueMissed_eq e b) as [l1 H1].
    cbn [for_of]. unfold mbind, M_bind. rewrite H1.
    destruct (IH (match sent b !! transactionHash e with
                  | None => pushed EventQueue e b
                  | Some _ => b
                  end)) as [l2 H2].
    rewrite H2. exists (l1 ++ l2)%list. f_equal.
    unfold missed. rewrite filter_cons.
    destruct (sent b !! transactionHash e) eqn:Hl.
    + rewrite decide_False by done. reflexivity.
    + rewrite decide_True by done. by destruct b.
Qed.

Lemma catchMissed_eq (q : QueryOutcome) (a b : Z) (bt : t) :
  ∃ l,
    catchMissedEventsFromTo q a b bt =
    {| result := match q with
                 | QueryThrows error => if b >? a then Throw error else Ok ()
                 | QueryEvents _ => Ok ()
                 end;
       state :=
         if completes q a b then
           with_manager (BotStateManagerFS.clearTransactionsBeforeBlock b)
             (with_manager (BotStateManagerFS.setLastBlock b)
                (assign EventQueue
                   (push_all (enqueued q a b (sent bt)) (eventQueue bt)) bt))
         else bt;
       effects := l |}.
Proof.
  unfold catchMissedEventsFromTo, completes, enqueued.
  destruct (b >? a).
  - destruct q as [error | events]; [by eexists |].
    destruct (for_of_enqueueMissed events bt) as [l Hl].
    unfold_M. rewrite Hl. cbv beta iota.
    rewrite on_manager_setLastBlock. cbv beta iota.
    rewrite on_manager_clear. by eexists.
  - unfold_M.
    rewrite on_manager_setLastBlock. cbv beta iota.
    rewrite on_manager_clear. eexists.
    by destruct bt, q.
Qed.

Lemma catchMissed_result (q : QueryOutcome) (a b : Z) (bt : t) :
  result (catchMissedEventsFromTo q a b bt) =
  match q with
  | QueryThrows error => if b >? a then Throw error else Ok ()
  | QueryEvents _ => Ok ()
  end.
Proof.
  by destruct (catchMissed_eq q a b bt) as [l ->].
Qed.

Lemma catchMissed_state (q : QueryOutcome) (a b : Z) (bt : t) :
  state (catchMissedEventsFromTo q a b bt) =
  if completes q a b then
    with_manager (BotStateManagerFS.clearTransactionsBeforeBlock b)
      (with_manager (BotStateManagerFS.setLastBlock b)
         (assign EventQueue
            (push_all (enqueued q a b (sent bt)) (eventQueue bt)) bt))
  else bt.
Proof.
  by destruct (catchMissed_eq q a b bt) as [l ->].
Qed.

(** The state manager after [setLastBlock(n)] and
    [clearTransactionsBeforeBlock(n)]. *)
Lemma lastBlock_moved (n : Z) (bt : t) :
  lastBlock (with_manager (BotStateManagerFS.clearTransactionsBeforeBlock n)
               (with_manager (BotStateManagerFS.setLastBlock n) bt)) = n.
Proof. reflexivity. Qed.

Lemma sent_moved (n : Z) (bt : t) :
  sent (with_manager (BotStateManagerFS.clearTransactionsBeforeBlock n)
          (with_manager (BotStateManagerFS.setLastBlock n) bt)) =
  filter (λ kv, ¬ (kv.2 < n)) (sent bt).
Proof. reflexivity. Qed.

Lemma failed_moved (n : Z) (bt : t) :
  failed (with_manager (BotStateManagerFS.clearTransactionsBeforeBlock n)
            (with_manager (BotStateManagerFS.setLastBlock n) bt)) = failed bt.
Proof. reflexivity. Qed.
End CatchMissedFacts.

(** ** The event loop *)

Section LoopFacts.
Import Bot.

Lemma the_bot_step (currentBlock : Z) (s : Step) (σ : System) :
  the_bot (step currentBlock s σ) =
  match s with
  | PingEvent event => state (onPing currentBlock event (the_bot σ))
  | CatchMissed a b q => state (catchMissedEventsFromTo q a b (the_bot σ))
  | Tick r => state (queueHandle_begin r (the_bot σ))
  | Settle r o =>
      match inFlight r σ with
      | Some event => state (queueHandle_settle o event r (the_bot σ))
      | None => the_bot σ
      end
  end.
Proof.
  destruct s as [event | a b q | r | r o]; try reflexivity.
  - unfold step, turn. destruct (result _) as [[e|]|]; by destruct r.
  - unfold step. destruct (inFlight r σ); by destruct r.
Qed.

Lemma inFlight_step (currentBlock : Z) (s : Step) (σ : System) (r : QueueRef) :
  inFlight r (step currentBlock s σ) =
  match s with
  | Tick r' =>
      if decide (r = r') then
        match result (queueHandle_begin r' (the_bot σ)) with
        | Ok (Some event) => Some event
        | _ => inFlight r σ
        end
      else inFlight r σ
  | Settle r' o =>
      if decide (r = r') then
        match inFlight r' σ with Some _ => None | None => inFlight r σ end
      else inFlight r σ
  | _ => inFlight r σ
  end.
Proof.
  destruct s as [event | a b q | r' | r' o]; try reflexivity.
  - unfold step, turn. destruct (result _) as [[e|]|]; by destruct r, r'.
  - unfold step. destruct (inFlight r' σ) eqn:H; destruct r, r'; simpl in *;
      try reflexivity; by rewrite ?H.
Qed.

(** The pass that [init] makes is the step [CatchMissed] from the stored
    lastBlock to the head block. *)
Lemma init_state (currentBlock : Z) (q : QueryOutcome) (b : t) :
  state (init currentBlock q b) =
  state (catchMissedEventsFromTo q (lastBlock b) currentBlock b).
Proof.
  unfold init, on_manager, BotStateManagerFS.getLastBlock, lastBlock.
  unfold_M. destruct b as [q1 q2 g m].
  cbn [botStateManager set_botStateManager].
  by destruct (catchMissedEventsFromTo _ _ _ _) as [res s l].
Qed.

Lemma run_app (currentBlock : Z) (l1 l2 : list Step) (σ : System) :
  run currentBlock (l1 ++ l2) σ = run currentBlock l2 (run currentBlock l1 σ).
Proof. apply foldl_app. Qed.

Lemma run_cons (currentBlock : Z) (s : Step) (l : list Step) (σ : System) :
  run currentBlock (s :: l) σ = run currentBlock l (step currentBlock s σ).
Proof. reflexivity. Qed.

(** The names the program gives the two queues. *)
Lemma wired_pushed (r : QueueRef) (event : EventLog) (b : t) :
  wired b → wired (pushed r event b).
Proof.
  intros [H1 H2]. destruct r; split; simpl; rewrite ?push_queueName; done.
Qed.

Lemma wired_unlocked (r : QueueRef) (b : t) : wired b → wired (unlocked r b).
Proof. intros [H1 H2]. by destruct r. Qed.

Lemma wired_with_manager (f : M BotStateManagerFS.t ()) (b : t) :
  wired b → wired (with_manager f b).
Proof. by intros [H1 H2]. Qed.

Lemma wired_handleErrorPong (event : EventLog) (r : QueueRef) (b : t) :
  wired b → wired (state (handleErrorPong event r b)).
Proof.
  intros H. rewrite handleErrorPong_state.
  destruct (String.eqb _ _); [by apply wired_pushed | by apply wired_with_manager].
Qed.

Lemma wired_step (currentBlock : Z) (s : Step) (σ : System) :
  wired (the_bot σ) → wired (the_bot (step currentBlock s σ)).
Proof.
  intros H. rewrite the_bot_step. destruct s as [event | a b q | r | r o].
  - rewrite onPing_state. destruct (_ >? _); [by apply wired_pushed | done].
  - rewrite catchMissed_state. destruct (completes q a b); [|done].
    do 2 apply wired_with_manager. destruct H as [H1 H2].
    split; simpl; rewrite ?push_all_queueName; done.
  - rewrite queueHandle_begin_eq. cbv zeta.
    destruct (Queue.lock _); [done |].
    destruct (Queue.queue _); cbn [state]; [by apply wired_unlocked |].
    destruct H as [H1 H2]. by destruct r.
  - destruct (inFlight r σ) as [event|]; [|done].
    rewrite queueHandle_settle_state. apply wired_unlocked.
    destruct (confirmed o);
      [by apply wired_with_manager | by apply wired_handleErrorPong].
Qed.

Lemma wired_run (currentBlock : Z) (steps : list Step) (σ : System) :
  wired (the_bot σ) → wired (the_bot (run currentBlock steps σ)).
Proof.
  revert σ. induction steps as [|s steps IH]; intros σ H; [done |].
  rewrite run_cons. apply IH. by apply wired_step.
Qed.

Lemma wired_boot (disk : gmap string State.t) : wired (the_bot (boot disk)).
Proof. by split. Qed.

(** No queue holds two events with one transaction hash. *)
Lemma distinct_pushed (r : QueueRef) (event : EventLog) (b : t) :
  distinct b → distinct (pushed r event b).
Proof.
  intros H r'. unfold pushed. rewrite deref_assign.
  case_decide; [subst; apply push_NoDup |]; apply H.
Qed.

Lemma distinct_unlocked (r : QueueRef) (b : t) : distinct b → distinct (unlocked r b).
Proof.
  intros H r'. unfold unlocked. rewrite deref_assign.
  case_decide; [subst |]; apply H.
Qed.

Lemma distinct_with_manager (f : M BotStateManagerFS.t ()) (b : t) :
  distinct b → distinct (with_manager f b).
Proof. intros H r'. specialize (H r'). by destruct r'. Qed.

Lemma distinct_step (currentBlock : Z) (s : Step) (σ : System) :
  distinct (the_bot σ) → distinct (the_bot (step currentBlock s σ)).
Proof.
  intros H. rewrite the_bot_step. destruct s as [event | a b q | r | r o].
  - rewrite onPing_state. destruct (_ >? _); [by apply distinct_pushed | done].
  - rewrite catchMissed_state. destruct (completes q a b); [|done].
    do 2 apply distinct_with_manager. intros r'. rewrite deref_assign.
    case_decide; [subst; apply push_all_NoDup, (H EventQueue) | apply H].
  - rewrite queueHandle_begin_eq. cbv zeta.
    destruct (Queue.lock _); [done |].
    destruct (Queue.queue (deref r (the_bot σ))) as [|e rest] eqn:Hq;
      cbn [state]; [by apply distinct_unlocked |].
    intros r'. rewrite deref_assign. case_decide; [subst r' | apply H].
    specialize (H r). unfold Queue.hashes in *. rewrite Hq in H. simpl in *.
    by apply NoDup_cons in H as [_ H].
  - destruct (inFlight r σ) as [event|]; [|done].
    rewrite queueHandle_settle_state. apply distinct_unlocked.
    destruct (confirmed o); [by apply distinct_with_manager |].
    rewrite handleErrorPong_state.
    destruct (String.eqb _ _);
      [by apply distinct_pushed | by apply distinct_with_manager].
Qed.

Lemma distinct_run (currentBlock : Z) (steps : list Step) (σ : System) :
  distinct (the_bot σ) → distinct (the_bot (run currentBlock steps σ)).
Proof.
  revert σ. induction steps as [|s steps IH]; intros σ H; [done |].
  rewrite run_cons. apply IH. by apply distinct_step.
Qed.

Lemma distinct_boot (disk : gmap string State.t) : distinct (the_bot (boot disk)).
Proof. intros []; apply NoDup_nil_2. Qed.
End LoopFacts.

(** ** The failed map and the queues along the event loop *)

Section EscalationFacts.
Import Bot.

Lemma failed_step (currentBlock : Z) (s : Step) (σ : System) :
  failed (the_bot (step currentBlock s σ)) =
  match s with
  | Settle r o =>
      match inFlight r σ with
      | Some event =>
          if confirmed o then failed (the_bot σ)
          else if String.eqb (Queue.queueName (deref r (the_bot σ)))
                    COMMON_PING_EVENT_QUEUE
          then failed (the_bot σ)
          else <[transactionHash event := blockNumber event]> (failed (the_bot σ))
      | None => failed (the_bot σ)
      end
  | _ => failed (the_bot σ)
  end.
Proof.
  rewrite the_bot_step. destruct s as [event | a b q | r | r o].
  - rewrite onPing_state. by destruct (_ >? _).
  - rewrite catchMissed_state. by destruct (completes q a b).
  - rewrite queueHandle_begin_eq. cbv zeta.
    destruct (Queue.lock _); [done |].
    destruct (Queue.queue _); by destruct r.
  - destruct (inFlight r σ) as [event|]; [|done].
    rewrite queueHandle_settle_state.
    destruct (confirmed o); [by destruct r |].
    rewrite handleErrorPong_state.
    destruct (String.eqb _ _); by destruct r.
Qed.

(** An entry of the failed map is never removed. *)
Lemma failed_kept_step (currentBlock : Z) (s : Step) (σ : System) (h : string) :
  is_Some (failed (the_bot σ) !! h) →
  is_Some (failed (the_bot (step currentBlock s σ)) !! h).
Proof.
  intros H. rewrite failed_step. destruct s as [| | |r o]; try done.
  destruct (inFlight r σ) as [event|]; [|done].
  destruct (confirmed o); [done |]. destruct (String.eqb _ _); [done |].
  rewrite lookup_insert. case_decide; [eauto | done].
Qed.

Lemma failed_kept_run (currentBlock : Z) (steps : list Step) (σ : System)
    (h : string) :
  is_Some (failed (the_bot σ) !! h) →
  is_Some (failed (the_bot (run currentBlock steps σ)) !! h).
Proof.
  revert σ. induction steps as [|s steps IH]; intros σ H; [done |].
  rewrite run_cons. apply IH. by apply failed_kept_step.
Qed.

Lemma failed_same_step (currentBlock : Z) (s : Step) (σ : System)
    (h : string) (n : Z) :
  absent h σ →
  failed (the_bot σ) !! h = Some n →
  failed (the_bot (step currentBlock s σ)) !! h = Some n.
Proof.
  intros [_ Hfl] H. rewrite failed_step. destruct s as [| | |r o]; try done.
  destruct (inFlight r σ) as [event|] eqn:Hin; [|done].
  destruct (confirmed o); [done |]. destruct (String.eqb _ _); [done |].
  rewrite lookup_insert_ne; [done |]. by apply (Hfl r).
Qed.

Lemma hashes_unlocked (r r' : QueueRef) (b : t) :
  Queue.hashes (deref r' (unlocked r b)) = Queue.hashes (deref r' b).
Proof. by destruct r, r'. Qed.

Lemma hashes_with_manager (f : M BotStateManagerFS.t ()) (r' : QueueRef) (b : t) :
  Queue.hashes (deref r' (with_manager f b)) = Queue.hashes (deref r' b).
Proof. by destruct r'. Qed.

Lemma elem_of_hashes_pushed (r r' : QueueRef) (event : EventLog) (b : t)
    (h : string) :
  h ∈ Queue.hashes (deref r' (pushed r event b)) →
  h ∈ Queue.hashes (deref r' b) ∨ h = transactionHash event.
Proof.
  unfold pushed. rewrite deref_assign. case_decide; [subst r' | auto].
  by rewrite push_elem_of.
Qed.

Lemma elem_of_missed (sent : gmap string Z) (events : list EventLog) (h : string) :
  h ∈ (transactionHash <$> missed sent events) →
  h ∈ (transactionHash <$> events).
Proof.
  rewrite !list_elem_of_fmap. intros (e & -> & He).
  exists e. split; [done |]. unfold missed in He.
  by apply list_elem_of_filter in He as [_ He].
Qed.

(** A hash that is in no queue and not in flight stays so as long as no step
    delivers it. *)
Lemma absent_step (currentBlock : Z) (s : Step) (σ : System) (h : string) :
  delivers h s = false → absent h σ → absent h (step currentBlock s σ).
Proof.
  intros Hd [Hq Hfl]. split.
  - intros r'. rewrite the_bot_step.
    destruct s as [event | a b q | r | r o]; simpl in Hd.
    + apply bool_decide_eq_false in Hd.
      rewrite onPing_state. destruct (_ >? _); [|apply Hq].
      intros [Hin | ->]%elem_of_hashes_pushed; [by apply (Hq r') | done].
    + rewrite catchMissed_state. destruct (completes q a b); [|apply Hq].
      rewrite !hashes_with_manager, deref_assign.
      case_decide; [subst r' | apply Hq].
      rewrite push_all_elem_of. intros [Hin | Hin]; [by apply (Hq EventQueue) |].
      unfold enqueued in Hin. destruct (b >? a); [|by apply elem_of_nil in Hin].
      destruct q as [|events]; [by apply elem_of_nil in Hin |].
      apply bool_decide_eq_false in Hd. apply Hd. by eapply elem_of_missed.
    + rewrite queueHandle_begin_eq. cbv zeta.
      destruct (Queue.lock _); [apply Hq |].
      destruct (Queue.queue (deref r (the_bot σ))) as [|e rest] eqn:Hl;
        cbn [state]; [rewrite hashes_unlocked; apply Hq |].
      rewrite deref_assign. case_decide; [subst r' | apply Hq].
      intros Hin. apply (Hq r). unfold Queue.hashes in *. rewrite Hl.
      simpl in *. by apply elem_of_cons; right.
    + destruct (inFlight r σ) as [event|] eqn:Hin; [|apply Hq].
      rewrite queueHandle_settle_state, hashes_unlocked.
      destruct (confirmed o); [rewrite hashes_with_manager; apply Hq |].
      rewrite handleErrorPong_state.
      destruct (String.eqb _ _); [|rewrite hashes_with_manager; apply Hq].
      intros [Hin' | ->]%elem_of_hashes_pushed; [by apply (Hq r') |].
      by apply (Hfl r event).
  - intros r' e. rewrite inFlight_step.
    destruct s as [event | a b q | r | r o]; try apply Hfl.
    + case_decide; [subst r' | apply Hfl].
      rewrite queueHandle_begin_eq. cbv zeta.
      destruct (Queue.lock _); [apply Hfl |].
      destruct (Queue.queue (deref r (the_bot σ))) as [|e' rest] eqn:Hl;
        cbn [result]; [apply Hfl |].
      intros [= ->] Heq. apply (Hq r). unfold Queue.hashes.
      rewrite Hl, fmap_cons, Heq. by apply elem_of_cons; left.
    + case_decide; [subst r' | apply Hfl].
      destruct (inFlight r σ); done.
Qed.

Lemma absent_run (currentBlock : Z) (steps : list Step) (σ : System)
    (h : string) (n : Z) :
  Forall (λ s, delivers h s = false) steps →
  absent h σ →
  failed (the_bot σ) !! h = Some n →
  absent h (run currentBlock steps σ) ∧
  failed (the_bot (run currentBlock steps σ)) !! h = Some n.
Proof.
  revert σ. induction steps as [|s steps IH]; intros σ Hall Ha Hf; [done |].
  apply Forall_cons in Hall as [Hs Hall]. rewrite run_cons.
  apply IH; [done | by apply absent_step | by apply failed_same_step].
Qed.
End EscalationFacts.

(** ** The scenarios of the specification, run *)

(** An event fails from the common queue and succeeds from the force queue:
    it ends in sentTransactions, not in failedTransactions, and in no
    queue. *)
Example scenario_escalated_success :
  let σ := run 7979100
             [PingEvent ping2;
              Tick Bot.EventQueue; Settle Bot.EventQueue rejected;
              Tick Bot.ForceEventQueue; Settle Bot.ForceEventQueue mined]
             (boot ∅) in
  Bot.sent (the_bot σ) !! "0xe2" = Some 7979120 ∧
  Bot.failed (the_bot σ) !! "0xe2" = None ∧
  Queue.queue (Bot.eventQueue (the_bot σ)) = [] ∧
  Queue.queue (Bot.forceEventQueue (the_bot σ)) = [] ∧
  filter (λ e, is_pong e = true) (history σ) =
    [ContractPong "0xe2" 50000; ContractPong "0xe2" 100000].
Proof. vm_compute. repeat split; reflexivity. Qed.

(** A pass finds an event that is already in sentTransactions: it is not
    queued, and lastBlock moves to the end of the range. *)
Example scenario_already_sent :
  let out := Bot.catchMissedEventsFromTo (QueryEvents [ping1]) 7979000 7979040
               (bot disk1) in
  result out = Ok () ∧
  Queue.queue (Bot.eventQueue (state out)) = [] ∧
  Bot.lastBlock (state out) = 7979040 ∧
  Bot.sent (state out) !! "0xe1" = Some 7979050.
Proof. vm_compute. repeat split; reflexivity. Qed.

(** * The properties of the specification *)

(** ** C1: the watermark across [catchMissedEventsFromTo] *)

(** C1, counterexample.  On a fresh state (lastBlock 7979028) the call
    [catchMissedEventsFromTo(7979028, 7979000)] completes and leaves
    lastBlock at 7979000: the stored value went down. *)
Lemma catchMissed_lowers_lastBlock :
  let b := bot ∅ in
  let out := Bot.catchMissedEventsFromTo (QueryEvents []) 7979028 7979000 b in
  result out = Ok () ∧
  Bot.lastBlock b = 7979028 ∧
  Bot.lastBlock (state out) = 7979000 ∧
  ¬ (Bot.lastBlock b ≤ Bot.lastBlock (state out)).
Proof. vm_compute. repeat split; try reflexivity. intros H. by apply H. Qed.

(** Two passes started by the timer before either was answered, both from
    the stored lastBlock 7979028, with heads 7979200 and 7979300: each has
    an end block above the lastBlock stored when it was called.  The
    answers arrive in the other order, and the second one to arrive lowers
    lastBlock from 7979300 to 7979200. *)
Example overlapping_passes_lower_lastBlock :
  let σ1 := run 7979100 [CatchMissed 7979028 7979300 (QueryEvents [])] (boot ∅) in
  let σ2 := run 7979100 [CatchMissed 7979028 7979200 (QueryEvents [])] σ1 in
  Bot.lastBlock (the_bot (boot ∅)) = 7979028 ∧
  Bot.lastBlock (the_bot σ1) = 7979300 ∧
  Bot.lastBlock (the_bot σ2) = 7979200.
Proof. vm_compute. repeat split; reflexivity. Qed.

(** The stored lastBlock after one step of the event loop. *)
Lemma lastBlock_step (currentBlock : Z) (s : Step) (σ : System) :
  Bot.lastBlock (the_bot (step currentBlock s σ)) =
  match s with
  | CatchMissed a b q =>
      if completes q a b then b else Bot.lastBlock (the_bot σ)
  | _ => Bot.lastBlock (the_bot σ)
  end.
Proof.
  rewrite the_bot_step. destruct s as [event | a b q | r | r o].
  - rewrite onPing_state. by destruct (_ >? _).
  - rewrite catchMissed_state.
    destruct (completes q a b); [apply lastBlock_moved | done].
  - rewrite queueHandle_begin_eq. cbv zeta.
    destruct (Queue.lock _); [done |].
    destruct (Queue.queue _); by destruct r.
  - destruct (inFlight r σ) as [event|]; [|done].
    rewrite queueHandle_settle_state.
    destruct (confirmed o); [by destruct r |].
    rewrite handleErrorPong_state.
    destruct (String.eqb _ _); by destruct r.
Qed.

Lemma advancing_app (currentBlock : Z) (l1 l2 : list Step) (σ : System) :
  advancing currentBlock (l1 ++ l2)%list σ =
  advancing currentBlock l1 σ
  && advancing currentBlock l2 (run currentBlock l1 σ).
Proof.
  revert σ. induction l1 as [|s l1 IH]; intros σ; [done |].
  cbn [app advancing]. rewrite run_cons, IH. by rewrite andb_assoc.
Qed.

Lemma advancing_run (currentBlock : Z) (steps : list Step) (σ : System) :
  advancing currentBlock steps σ = true →
  Bot.lastBlock (the_bot σ)
  ≤ Bot.lastBlock (the_bot (run currentBlock steps σ)).
Proof.
  revert σ. induction steps as [|s steps IH]; intros σ H; [done |].
  cbn [advancing] in H. apply andb_true_iff in H as [Hs H].
  rewrite run_cons. etrans; [|by apply IH].
  rewrite lastBlock_step. destruct s as [| a b q | |]; try done.
  destruct (completes q a b); [lia | done].
Qed.

(** C1, amended.  Along any sequence of steps of the event loop (passes of
    [catchMissedEventsFromTo] answered in any order, live events, drains),
    the stored lastBlock never goes down, provided every pass has, when its
    answer arrives and it stores its end block, an end block that is not
    below the lastBlock stored at that moment: the value after any further
    stretch of the run is at least the value before it.  A pass that
    completes stores its end block and one whose query throws leaves
    lastBlock as it is.  The proviso is on the value stored when the pass
    writes, not when it was called: the timer starts passes without waiting
    for the one before, so the proviso can hold at the call and fail at the
    answer, and lastBlock then goes down. *)
Theorem lastBlock_monotone_along_run
    (currentBlock : Z) (steps : list Step) (σ : System) :
  advancing currentBlock steps σ = true →
  (∀ l1 l2 l3,
     steps = (l1 ++ l2 ++ l3)%list →
     Bot.lastBlock (the_bot (run currentBlock l1 σ))
     ≤ Bot.lastBlock (the_bot (run currentBlock (l1 ++ l2)%list σ))) ∧
  (∀ q a b bt,
     let out := Bot.catchMissedEventsFromTo q a b bt in
     Bot.lastBlock (state out) =
       (if is_throw (result out) then Bot.lastBlock bt else b)).
Proof.
  intros H. split.
  - intros l1 l2 l3 ->. rewrite run_app. apply advancing_run.
    rewrite !advancing_app in H.
    by apply andb_true_iff in H as [_ [H _]%andb_true_iff].
  - intros q a b bt out. subst out.
    rewrite catchMissed_state, catchMissed_result. unfold completes.
    destruct q as [error | events]; destruct (b >? a); cbn [is_throw];
      rewrite ?lastBlock_moved; reflexivity.
Qed.

Lemma lastBlock_monotone_along_run_witness :
  let first := [CatchMissed 7979100 7979200 (QueryEvents [ping2])] in
  let next := [Tick Bot.EventQueue;
               CatchMissed 7979200 7979250 (QueryThrows (Error "timeout"));
               Settle Bot.EventQueue mined;
               CatchMissed 7979200 7979300 (QueryEvents [])] in
  let last := [PingEvent ping2'; CatchMissed 7979300 7979300 (QueryEvents [])] in
  Bot.lastBlock (the_bot (run 7979100 first (boot disk1)))
  ≤ Bot.lastBlock (the_bot (run 7979100 (first ++ next)%list (boot disk1))).
Proof.
  intros first next last.
  destruct (lastBlock_monotone_along_run 7979100 (first ++ next ++ last)%list
              (boot disk1)) as [H _].
  - vm_compute. reflexivity.
  - by apply (H first next last).
Defined.

(** ** C2: [setLastBlock] *)

(** C2, counterexample.  With lastBlock 7979028 stored, [setLastBlock(7979000)]
    returns normally, stores 7979000 and rewrites the state file. *)
Lemma setLastBlock_accepts_lower :
  let m := state (BotStateManagerFS.new configuration ∅) in
  let out := BotStateManagerFS.setLastBlock 7979000 m in
  result (BotStateManagerFS.getLastBlock m) = Ok 7979028 ∧
  7979000 < 7979028 ∧
  result out = Ok () ∧
  result (BotStateManagerFS.getLastBlock (state out)) = Ok 7979000 ∧
  State.lastBlock <$> (BotStateManagerFS.fs m !! "lastBlock.json") = Some 7979028 ∧
  State.lastBlock <$> (BotStateManagerFS.fs (state out) !! "lastBlock.json")
    = Some 7979000.
Proof. vm_compute. repeat split; reflexivity. Qed.

(** C2, amended.  [setLastBlock(n)] never fails: for every [n], also below
    [getLastBlock()], it stores [n] as lastBlock, leaves the two maps as
    they are, and has written the new state to the state file when it
    returns. *)
Theorem setLastBlock_stores_any (n : Z) (m : BotStateManagerFS.t) :
  let out := BotStateManagerFS.setLastBlock n m in
  result out = Ok () ∧
  result (BotStateManagerFS.getLastBlock (state out)) = Ok n ∧
  BotStateManagerFS._sentTransactions (state out) =
    BotStateManagerFS._sentTransactions m ∧
  BotStateManagerFS._failedTransactions (state out) =
    BotStateManagerFS._failedTransactions m ∧
  BotStateManagerFS.fs (state out) !! BotStateManagerFS._stateFile m =
    Some {| State.lastBlock := n;
            State.sentTransactions := Some (BotStateManagerFS._sentTransactions m);
            State.failedTransactions :=
              Some (BotStateManagerFS._failedTransactions m) |} ∧
  effects out =
    [WriteFileSync (BotStateManagerFS._stateFile m)
       (BotStateManagerFS.snapshot (state out))].
Proof.
  cbv zeta. rewrite setLastBlock_eq, saveState_eq. simpl.
  repeat split; try reflexivity.
  apply lookup_insert_eq.
Qed.

(** ** C3: [catchMissedEventsFromTo] on an empty range *)

(** C3, counterexample.  The state file says lastBlock 7979100 and holds a
    sent entry at block 7979050.  [catchMissedEventsFromTo(7979100, 7979100)]
    removes that entry, and [catchMissedEventsFromTo(7979100, 7979090)] also
    moves lastBlock to 7979090: the state store is not left unchanged. *)
Lemma catchMissed_empty_range_changes_store :
  let b := bot disk1 in
  let out := Bot.catchMissedEventsFromTo (QueryEvents []) 7979100 7979100 b in
  let out' := Bot.catchMissedEventsFromTo (QueryEvents []) 7979100 7979090 b in
  Bot.sent b !! "0xe1" = Some 7979050 ∧
  Bot.sent (state out) !! "0xe1" = None ∧
  Bot.lastBlock b = 7979100 ∧
  Bot.lastBlock (state out') = 7979090 ∧
  Bot.botStateManager (state out) ≠ Bot.botStateManager b ∧
  Bot.botStateManager (state out') ≠ Bot.botStateManager b.
Proof.
  cbv zeta. split_and!; try (vm_compute; reflexivity).
  - intros H.
    apply (f_equal (λ m, BotStateManagerFS._sentTransactions m !! "0xe1")) in H.
    vm_compute in H. discriminate.
  - intros H. apply (f_equal BotStateManagerFS._lastBlock) in H.
    vm_compute in H. discriminate.
Qed.

(** C3, amended.  When [endBlockNumber ≤ startBlockNumber],
    [catchMissedEventsFromTo] queries nothing and pushes nothing: both
    queues and failedTransactions are unchanged.  It still sets lastBlock to
    [endBlockNumber] and removes the sent entries below [endBlockNumber],
    and its effects are exactly two writes of the state file: the first
    with the new lastBlock and the old sent entries, the second with the
    entries that are kept, which is what the file holds afterwards. *)
Theorem catchMissed_empty_range (q : QueryOutcome) (a b : Z) (bt : Bot.t) :
  b ≤ a →
  let out := Bot.catchMissedEventsFromTo q a b bt in
  let path := BotStateManagerFS._stateFile (Bot.botStateManager bt) in
  let kept := filter (λ kv, ¬ (kv.2 < b)) (Bot.sent bt) in
  result out = Ok () ∧
  filter (λ e, is_query e = true) (effects out) = [] ∧
  filter (λ e, is_write e = false) (effects out) = [] ∧
  Bot.eventQueue (state out) = Bot.eventQueue bt ∧
  Bot.forceEventQueue (state out) = Bot.forceEventQueue bt ∧
  Bot.failed (state out) = Bot.failed bt ∧
  Bot.lastBlock (state out) = b ∧
  Bot.sent (state out) = kept ∧
  effects out =
    [WriteFileSync path
       {| State.lastBlock := b;
          State.sentTransactions := Some (Bot.sent bt);
          State.failedTransactions := Some (Bot.failed bt) |};
     WriteFileSync path
       {| State.lastBlock := b;
          State.sentTransactions := Some kept;
          State.failedTransactions := Some (Bot.failed bt) |}] ∧
  BotStateManagerFS.fs (Bot.botStateManager (state out)) !! path =
    Some {| State.lastBlock := b;
            State.sentTransactions := Some kept;
            State.failedTransactions := Some (Bot.failed bt) |}.
Proof.
  intros Hle out path kept. subst out path kept.
  unfold Bot.catchMissedEventsFromTo.
  destruct (Z.gtb_spec b a) as [Hlt | _]; [lia |].
  destruct bt as [q1 q2 g m]. split_and!; try reflexivity.
  apply lookup_insert_eq.
Qed.

Lemma catchMissed_empty_range_witness :
  let out := Bot.catchMissedEventsFromTo (QueryEvents [ping2]) 7979100 7979100
               (bot disk1) in
  result out = Ok () ∧
  Queue.queue (Bot.eventQueue (state out)) = [] ∧
  Bot.sent (state out) = filter (λ kv, ¬ (kv.2 < 7979100)) (Bot.sent (bot disk1)) ∧
  effects out =
    [WriteFileSync "lastBlock.json"
       {| State.lastBlock := 7979100;
          State.sentTransactions := Some (Bot.sent (bot disk1));
          State.failedTransactions := Some (Bot.failed (bot disk1)) |};
     WriteFileSync "lastBlock.json"
       {| State.lastBlock := 7979100;
          State.sentTransactions :=
            Some (filter (λ kv, ¬ (kv.2 < 7979100)) (Bot.sent (bot disk1)));
          State.failedTransactions := Some (Bot.failed (bot disk1)) |}].
Proof.
  intros out.
  destruct (catchMissed_empty_range (QueryEvents [ping2]) 7979100 7979100
              (bot disk1)) as (Hr & _ & _ & Hq & _ & _ & _ & Hs & He & _).
  - lia.
  - split_and!;
      [exact Hr | exact (f_equal Queue.queue Hq) | exact Hs | exact He].
Defined.

(** ** C4: after the second failure *)

(** C4, counterexample.  The head block at start-up is 7979100.  [ping2]
    arrives live, its pong is rejected from the common queue and reverted
    from the force queue, so it is recorded in failedTransactions.  The
    subscription then delivers [ping2] once more, or a later pass finds it
    in its answer: in both runs it is back in the common queue. *)
Lemma failed_event_requeued :
  let twice_failed :=
    [PingEvent ping2;
     Tick Bot.EventQueue; Settle Bot.EventQueue rejected;
     Tick Bot.ForceEventQueue; Settle Bot.ForceEventQueue reverted] in
  let σ := run 7979100 twice_failed (boot ∅) in
  let σ1 := run 7979100 [PingEvent ping2] σ in
  let σ2 := run 7979100 [CatchMissed 7979100 7979200 (QueryEvents [ping2])] σ in
  (Bot.failed (the_bot σ) !! "0xe2" = Some 7979120 ∧
   Queue.queue (Bot.eventQueue (the_bot σ)) = [] ∧
   Queue.queue (Bot.forceEventQueue (the_bot σ)) = []) ∧
  (Bot.failed (the_bot σ1) !! "0xe2" = Some 7979120 ∧
   Queue.queue (Bot.eventQueue (the_bot σ1)) = [ping2]) ∧
  (Bot.failed (the_bot σ2) !! "0xe2" = Some 7979120 ∧
   Queue.queue (Bot.eventQueue (the_bot σ2)) = [ping2]).
Proof. vm_compute. repeat split; reflexivity. Qed.

(** C4, amended.  When the pong of an event drained from the force queue
    fails, the event's hash is in failedTransactions with its block number
    and stays in failedTransactions whatever happens later.  That drain
    pushes it into no queue: if the hash was in no queue and in flight for
    no other drain at that moment, it is in no queue afterwards for as long
    as no live event and no answer of a later pass carries that hash.
    (failedTransactions is never read, so an event delivered again is
    queued again.) *)
Theorem failed_twice_recorded
    (currentBlock : Z) (σ : System) (event : EventLog) (o : PongOutcome) :
  wired (the_bot σ) →
  inFlight Bot.ForceEventQueue σ = Some event →
  confirmed o = false →
  let h := transactionHash event in
  let σ' := step currentBlock (Settle Bot.ForceEventQueue o) σ in
  Bot.failed (the_bot σ') !! h = Some (blockNumber event) ∧
  (∀ r, Queue.queue (Bot.deref r (the_bot σ')) = Queue.queue (Bot.deref r (the_bot σ))) ∧
  (∀ later, is_Some (Bot.failed (the_bot (run currentBlock later σ')) !! h)) ∧
  (∀ later,
     (∀ r, h ∉ Queue.hashes (Bot.deref r (the_bot σ))) →
     (∀ e, inFlight Bot.EventQueue σ = Some e → transactionHash e ≠ h) →
     Forall (λ s, delivers h s = false) later →
     Bot.failed (the_bot (run currentBlock later σ')) !! h = Some (blockNumber event) ∧
     ∀ r, h ∉ Queue.hashes (Bot.deref r (the_bot (run currentBlock later σ')))).
Proof.
  intros Hw Hin Ho h σ'.
  assert (Hname : String.eqb (Queue.queueName (Bot.forceEventQueue (the_bot σ)))
                    COMMON_PING_EVENT_QUEUE = false).
  { destruct Hw as [_ ->]. reflexivity. }
  assert (Hbot : the_bot σ' =
                 unlocked Bot.ForceEventQueue
                   (with_manager (BotStateManagerFS.addFailedTransaction
                                    h (blockNumber event)) (the_bot σ))).
  { subst σ'. rewrite the_bot_step, Hin, queueHandle_settle_state, Ho.
    rewrite handleErrorPong_state. simpl Bot.deref. by rewrite Hname. }
  assert (Hf : Bot.failed (the_bot σ') !! h = Some (blockNumber event)).
  { rewrite Hbot. unfold Bot.failed. simpl. apply lookup_insert_eq. }
  assert (Hq : ∀ r, Queue.queue (Bot.deref r (the_bot σ')) =
                    Queue.queue (Bot.deref r (the_bot σ))).
  { intros r. rewrite Hbot. by destruct r. }
  split_and!; [done | done | |].
  - intros later. apply failed_kept_run. by rewrite Hf.
  - intros later Hnq Hnf Hall.
    assert (Ha : absent h σ').
    { split.
      - intros r. unfold Queue.hashes. rewrite Hq. apply Hnq.
      - intros r e. subst σ'. rewrite inFlight_step.
        case_decide; [subst r; by rewrite Hin |].
        destruct r; [apply Hnf | done]. }
    destruct (absent_run currentBlock later σ' h (blockNumber event) Hall Ha Hf)
      as [[Hq' _] Hf'].
    done.
Qed.

Lemma failed_twice_recorded_witness :
  let σ := run 7979100
             [PingEvent ping2; Tick Bot.EventQueue;
              Settle Bot.EventQueue rejected; Tick Bot.ForceEventQueue]
             (boot ∅) in
  let σ' := step 7979100 (Settle Bot.ForceEventQueue reverted) σ in
  let later :=
    [Tick Bot.EventQueue; PingEvent ping1;
     CatchMissed 7979100 7979200 (QueryEvents [ping1]);
     Tick Bot.ForceEventQueue] in
  Bot.failed (the_bot σ') !! "0xe2" = Some 7979120 ∧
  Bot.failed (the_bot (run 7979100 later σ')) !! "0xe2" = Some 7979120 ∧
  ∀ r, "0xe2" ∉ Queue.hashes (Bot.deref r (the_bot (run 7979100 later σ'))).
Proof.
  intros σ σ' later.
  destruct (failed_twice_recorded 7979100 σ ping2 reverted)
    as (H1 & _ & _ & H4).
  - split; vm_compute; reflexivity.
  - vm_compute. reflexivity.
  - reflexivity.
  - split; [exact H1 |]. apply H4.
    + intros r H. destruct r; vm_compute in H; inversion H.
    + intros e He. vm_compute in He. discriminate.
    + repeat (constructor; [vm_compute; reflexivity |]). constructor.
Defined.

(** ** C5: a queue holds a hash once *)

(** C5.  Two events with one transaction hash pushed to a queue that holds
    no hash twice: neither push throws, the second changes nothing in the
    queue and logs one warning, and the queue holds exactly one event with
    that hash afterwards.  Every push keeps the hashes of a queue distinct,
    so no queue of the running bot ever holds two events with one hash. *)
Theorem push_same_hash_once (e1 e2 : EventLog) (q : Queue.t) :
  transactionHash e1 = transactionHash e2 →
  NoDup (Queue.hashes q) →
  let o1 := Queue.push e1 q in
  let o2 := Queue.push e2 (state o1) in
  result o1 = Ok () ∧ result o2 = Ok () ∧
  state o2 = state o1 ∧
  effects o2 =
    [Emit LoggerWarn (NotPushedDuplicate (blockNumber e2) (Queue.queueName q))] ∧
  copies (transactionHash e1) (state o2) = 1%nat ∧
  NoDup (Queue.hashes (state o2)) ∧
  ∀ currentBlock disk steps r,
    NoDup (Queue.hashes
             (Bot.deref r (the_bot (run currentBlock steps (boot disk))))).
Proof.
  intros Hh Hnd o1 o2.
  assert (Hin : transactionHash e2 ∈ Queue.hashes (state o1)).
  { subst o1. rewrite push_elem_of. by right. }
  assert (Hnd1 : NoDup (Queue.hashes (state o1))) by by apply push_NoDup.
  assert (Ho2 : o2 = {| result := Ok (); state := state o1;
                        effects := [Emit LoggerWarn
                                      (NotPushedDuplicate (blockNumber e2)
                                         (Queue.queueName q))] |}).
  { subst o2. rewrite push_eq.
    apply some_same_hash_spec in Hin. rewrite Hin.
    subst o1. by rewrite push_queueName. }
  rewrite Ho2. cbn [result state effects].
  split_and!; try done.
  - apply push_result.
  - rewrite Hh. by apply copies_NoDup.
  - intros currentBlock disk steps r. apply distinct_run, distinct_boot.
Qed.

Lemma push_same_hash_once_witness :
  let q := Queue.new COMMON_PING_EVENT_QUEUE 1 in
  let o1 := Queue.push ping2 (state (Queue.push ping1 q)) in
  let o2 := Queue.push ping2' (state o1) in
  Queue.queue (state o1) = [ping1; ping2] ∧
  Queue.queue (state o2) = [ping1; ping2] ∧
  copies "0xe2" (state o2) = 1%nat.
Proof.
  intros q o1 o2.
  destruct (push_same_hash_once ping2 ping2' (state (Queue.push ping1 q)))
    as (_ & _ & Hs & _ & Hc & _).
  - reflexivity.
  - vm_compute. repeat constructor; vm_compute; intros H; inversion H.
  - split_and!; [reflexivity | reflexivity | exact Hc].
Defined.

(** ** C6: what a failed pong does, by queue *)

(** The queue after [push]. *)
Lemma push_queue (event : EventLog) (q : Queue.t) :
  Queue.queue (state (Queue.push event q)) =
  if Queue.some_same_hash event (Queue.queue q) then Queue.queue q
  else (Queue.queue q ++ [event])%list.
Proof. rewrite push_eq. by destruct (Queue.some_same_hash _ _). Qed.

(** C6.  With the queues named as the program names them, a drain whose
    pong fails takes the head event off its queue and then: from the common
    queue, calls [push] of the force queue with that very event and leaves
    the state manager alone, so that the event's hash is in the force queue
    afterwards, the event itself being appended at the tail unless the
    force queue already held an event with that hash; from the force queue,
    calls [addFailedTransaction(transactionHash, blockNumber)] and pushes
    the event into no queue. *)
Theorem failure_routed_by_queue
    (o : PongOutcome) (r : Bot.QueueRef) (event : EventLog)
    (rest : list EventLog) (b : Bot.t) :
  wired b →
  confirmed o = false →
  Queue.lock (Bot.deref r b) = false →
  Queue.queue (Bot.deref r b) = event :: rest →
  let b' := state (Bot.queueHandle o r b) in
  match r with
  | Bot.EventQueue =>
      Queue.queue (Bot.eventQueue b') = rest ∧
      Bot.forceEventQueue b' = state (Queue.push event (Bot.forceEventQueue b)) ∧
      Bot.botStateManager b' = Bot.botStateManager b ∧
      transactionHash event ∈ Queue.hashes (Bot.forceEventQueue b') ∧
      (transactionHash event ∉ Queue.hashes (Bot.forceEventQueue b) →
       Queue.queue (Bot.forceEventQueue b') =
         (Queue.queue (Bot.forceEventQueue b) ++ [event])%list) ∧
      (transactionHash event ∈ Queue.hashes (Bot.forceEventQueue b) →
       Queue.queue (Bot.forceEventQueue b') =
         Queue.queue (Bot.forceEventQueue b))
  | Bot.ForceEventQueue =>
      Queue.queue (Bot.forceEventQueue b') = rest ∧
      Bot.eventQueue b' = Bot.eventQueue b ∧
      Bot.botStateManager b' =
        state (BotStateManagerFS.addFailedTransaction
                 (transactionHash event) (blockNumber event)
                 (Bot.botStateManager b)) ∧
      Bot.failed b' !! transactionHash event = Some (blockNumber event)
  end.
Proof.
  intros [Hn1 Hn2] Ho Hlock Hq b'. subst b'.
  rewrite queueHandle_split, queueHandle_begin_eq. cbv zeta.
  rewrite Hlock, Hq.
  pose proof (queueHandle_settle_state o event r
                (Bot.assign r
                   (Queue.set_queue rest (Queue.set_lock true (Bot.deref r b)))
                   b)) as Hs.
  destruct (Bot.queueHandle_settle _ _ _ _) as [res b2 l2].
  cbn [state] in *. subst b2. rewrite Ho, handleErrorPong_state.
  destruct b as [q1 q2 g m], r; cbn in Hn1, Hn2, Hlock, Hq |- *.
  - rewrite Hn1. cbn. split_and!; try reflexivity.
    + apply push_elem_of. by right.
    + intros Hnin. rewrite push_queue.
      destruct (Queue.some_same_hash event (Queue.queue q2)) eqn:Hsame;
        [|reflexivity].
      by apply some_same_hash_spec in Hsame.
    + intros Hin. rewrite push_queue.
      apply some_same_hash_spec in Hin. by rewrite Hin.
  - rewrite Hn2. cbn. split_and!; try reflexivity.
    unfold Bot.failed. cbn. apply lookup_insert_eq.
Qed.

Lemma failure_routed_by_queue_witness :
  let b := state (Bot.onPing 7979100 ping2 (bot ∅)) in
  let b' := state (Bot.queueHandle rejected Bot.EventQueue b) in
  Queue.queue (Bot.eventQueue b') = [] ∧
  Queue.queue (Bot.forceEventQueue b') = [ping2] ∧
  Bot.botStateManager b' = Bot.botStateManager b.
Proof.
  intros b.
  destruct (failure_routed_by_queue rejected Bot.EventQueue ping2 [] b)
    as (H1 & _ & H3 & _ & H5 & _).
  - split; reflexivity.
  - reflexivity.
  - reflexivity.
  - reflexivity.
  - split_and!; [exact H1 | | exact H3].
    etrans; [apply H5 | reflexivity].
    intros H. vm_compute in H. inversion H.
Defined.

(** ** C7: the last block after construction *)

(** C7.  After construction [getLastBlock()] returns the lastBlock of the
    state file when the file exists and that value is at least the
    configured one, and the configured one otherwise, in particular when
    there is no state file.  With 100 configured and no file it returns 100;
    with 100 configured and 150 in the file it returns 150. *)
Theorem constructor_lastBlock
    (cfg : Configuration.t) (disk : gmap string State.t) :
  result (BotStateManagerFS.getLastBlock
            (state (BotStateManagerFS.new cfg disk))) =
    Ok (match disk !! Configuration.stateFile cfg with
        | Some data =>
            if decide (Configuration.lastBlock cfg ≤ State.lastBlock data)
            then State.lastBlock data
            else Configuration.lastBlock cfg
        | None => Configuration.lastBlock cfg
        end) ∧
  (∀ gas path,
     let floor100 := {| Configuration.lastBlock := 100;
                        Configuration.defaultGasLimit := gas;
                        Configuration.stateFile := path |} in
     result (BotStateManagerFS.getLastBlock
               (state (BotStateManagerFS.new floor100 ∅))) = Ok 100 ∧
     ∀ sent failed,
       result (BotStateManagerFS.getLastBlock
                 (state (BotStateManagerFS.new floor100
                           {[path := {| State.lastBlock := 150;
                                        State.sentTransactions := sent;
                                        State.failedTransactions := failed |}]})))
       = Ok 150).
Proof.
  assert (H : ∀ cfg disk,
    result (BotStateManagerFS.getLastBlock
              (state (BotStateManagerFS.new cfg disk))) =
    Ok (match disk !! Configuration.stateFile cfg with
        | Some data =>
            if decide (Configuration.lastBlock cfg ≤ State.lastBlock data)
            then State.lastBlock data
            else Configuration.lastBlock cfg
        | None => Configuration.lastBlock cfg
        end)).
  { clear. intros cfg disk.
    unfold BotStateManagerFS.new, BotStateManagerFS.constructor.
    unfold_M. cbn [BotStateManagerFS.fs BotStateManagerFS._stateFile
                   BotStateManagerFS.set_stateFile
                   BotStateManagerFS.set_lastBlock
                   BotStateManagerFS.set_sentTransactions
                   BotStateManagerFS.set_failedTransactions].
    destruct (disk !! Configuration.stateFile cfg) as [data|]; [|reflexivity].
    destruct (Z.geb_spec (State.lastBlock data) (Configuration.lastBlock cfg));
      case_decide; try lia; reflexivity. }
  split; [apply H |].
  intros gas path floor100. split.
  - rewrite H. by rewrite lookup_empty.
  - intros sent failed. rewrite H. cbn [Configuration.stateFile floor100].
    by rewrite lookup_singleton_eq.
Qed.

(** ** C8: the lock of a queue *)

(** C8.  While the lock of a queue is set, [queueHandle] on it returns at
    once: no effect, so no call of [pong], and the bot (queues and state
    manager) is unchanged; the same holds for its first half and for the
    timer step of the event loop.  While the lock is clear, the first half
    takes at most the head event off the queue, every other event is still
    in the queue in order when the drain is over, and the lock is clear
    again then, whatever the pong's outcome (also when a drain cut at its
    [await] is resumed in any later state). *)
Theorem queueHandle_lock (o : PongOutcome) (r : Bot.QueueRef) (b : Bot.t) :
  let out := Bot.queueHandle o r b in
  if Queue.lock (Bot.deref r b) then
    out = {| result := Ok (); state := b; effects := [] |} ∧
    Bot.queueHandle_begin r b =
      {| result := Ok None; state := b; effects := [] |} ∧
    ∀ currentBlock common force past,
      let σ := {| the_bot := b; inFlightCommon := common;
                  inFlightForce := force; history := past |} in
      step currentBlock (Tick r) σ = σ
  else
    Queue.lock (Bot.deref r (state out)) = false ∧
    Queue.queue (Bot.deref r (state (Bot.queueHandle_begin r b))) =
      tail (Queue.queue (Bot.deref r b)) ∧
    tail (Queue.queue (Bot.deref r b))
      `prefix_of` Queue.queue (Bot.deref r (state out)) ∧
    ∀ event b1,
      Queue.lock (Bot.deref r (state (Bot.queueHandle_settle o event r b1)))
      = false.
Proof.
  intros out. subst out.
  assert (Hsettle : ∀ event b1,
            Queue.lock (Bot.deref r
                          (state (Bot.queueHandle_settle o event r b1))) = false).
  { intros event b1. rewrite queueHandle_settle_state.
    unfold unlocked. rewrite deref_assign. by rewrite decide_True. }
  rewrite queueHandle_split, queueHandle_begin_eq. cbv zeta.
  destruct (Queue.lock (Bot.deref r b)) eqn:Hlock.
  - split_and!; [reflexivity | reflexivity |].
    intros currentBlock common force past. cbv zeta. unfold step, turn.
    cbn [the_bot]. rewrite queueHandle_begin_eq. cbv zeta. rewrite Hlock.
    cbn [result state effects history inFlightCommon inFlightForce].
    by rewrite app_nil_r.
  - destruct (Queue.queue (Bot.deref r b)) as [|event rest] eqn:Hq.
    + cbn [state tail]. split_and!; [| | apply prefix_nil | exact Hsettle].
      * unfold unlocked. rewrite deref_assign. by rewrite decide_True.
      * unfold unlocked. rewrite deref_assign, decide_True by done.
        cbn [Queue.queue Queue.set_lock]. exact Hq.
    + cbn [tail state].
      pose proof (queueHandle_settle_state o event r
                    (Bot.assign r
                       (Queue.set_queue rest
                          (Queue.set_lock true (Bot.deref r b))) b)) as Hs.
      pose proof (Hsettle event
                    (Bot.assign r
                       (Queue.set_queue rest
                          (Queue.set_lock true (Bot.deref r b))) b)) as Hl.
      destruct (Bot.queueHandle_settle _ _ _ _) as [res b2 l2].
      cbn [state] in *. split_and!; [exact Hl | | | exact Hsettle].
      * rewrite deref_assign. by rewrite decide_True.
      * subst b2. unfold unlocked. rewrite deref_assign, decide_True by done.
        cbn [Queue.queue Queue.set_lock].
        destruct (confirmed o).
        { unfold with_manager. destruct r; cbn; done. }
        rewrite handleErrorPong_state.
        destruct (String.eqb _ _).
        { unfold pushed. rewrite !deref_assign.
          destruct r; cbn [decide_rel]; simpl.
          - done.
          - rewrite push_eq. destruct (Queue.some_same_hash _ _); simpl;
              [done | by apply prefix_app_r]. }
        unfold with_manager. destruct r; cbn; done.
Qed.

(** ** C9: what [catchMissedEventsFromTo] leaves in sentTransactions *)

(** C9.  After [catchMissedEventsFromTo(a, b)] has completed,
    sentTransactions holds exactly its earlier entries whose block number is
    not below [b]: none below [b] is left, those at or above [b] are kept
    with their value, and failedTransactions is unchanged.  The clearing
    step itself changes nothing but sentTransactions and the state file. *)
Theorem catchMissed_clears_sent (q : QueryOutcome) (a b : Z) (bt : Bot.t) :
  result (Bot.catchMissedEventsFromTo q a b bt) = Ok () →
  let bt' := state (Bot.catchMissedEventsFromTo q a b bt) in
  (∀ h n, Bot.sent bt' !! h = Some n → b ≤ n) ∧
  (∀ h n, Bot.sent bt !! h = Some n → b ≤ n → Bot.sent bt' !! h = Some n) ∧
  Bot.sent bt' = filter (λ kv, ¬ (kv.2 < b)) (Bot.sent bt) ∧
  Bot.failed bt' = Bot.failed bt ∧
  ∀ m : BotStateManagerFS.t,
    let m' := state (BotStateManagerFS.clearTransactionsBeforeBlock b m) in
    BotStateManagerFS._sentTransactions m' =
      filter (λ kv, ¬ (kv.2 < b)) (BotStateManagerFS._sentTransactions m) ∧
    BotStateManagerFS._failedTransactions m' =
      BotStateManagerFS._failedTransactions m ∧
    BotStateManagerFS._lastBlock m' = BotStateManagerFS._lastBlock m.
Proof.
  intros Hres bt'. subst bt'.
  assert (Hc : completes q a b = true).
  { rewrite catchMissed_result in Hres. unfold completes.
    destruct q, (b >? a); done. }
  rewrite catchMissed_state, Hc, sent_moved, failed_moved.
  assert (Hsent : ∀ qq, Bot.sent (Bot.assign Bot.EventQueue qq bt) = Bot.sent bt)
    by done.
  rewrite Hsent.
  split_and!; try done.
  - intros h n Hl. by apply cleared_lookup in Hl as [_ ?].
  - intros h n Hl Hn. by apply cleared_lookup.
Qed.

Lemma catchMissed_clears_sent_witness :
  let bt' := state (Bot.catchMissedEventsFromTo (QueryEvents [ping2])
                      7979100 7979200 (bot disk1)) in
  Bot.sent (bot disk1) !! "0xe1" = Some 7979050 ∧
  Bot.sent bt' = filter (λ kv, ¬ (kv.2 < 7979200)) (Bot.sent (bot disk1)) ∧
  Bot.failed bt' = Bot.failed (bot disk1).
Proof.
  intros bt'.
  destruct (catchMissed_clears_sent (QueryEvents [ping2]) 7979100 7979200
              (bot disk1)) as (_ & _ & Hs & Hf & _).
  - reflexivity.
  - split_and!; [vm_compute; reflexivity | exact Hs | exact Hf].
Defined.

(** ** C10: [sendPong] and sentTransactions *)

(** C10.  [sendPong] returns normally exactly when [pong] was accepted and
    the receipt has status 1; it has then set the entry of the event's
    transactionHash in sentTransactions to the event's blockNumber.  In
    every other case (the call of [pong] throws, the wait throws, there is
    no receipt, the status is not 1) it throws and leaves the bot, and with
    it sentTransactions, exactly as before the call. *)
Theorem sendPong_sent_iff_confirmed
    (o : PongOutcome) (event : EventLog) (gasLimit : Z) (b : Bot.t) :
  let out := Bot.sendPong o event gasLimit b in
  (confirmed o = true ↔ ∃ pongHash, o = PongTx pongHash (Receipt (Some 1))) ∧
  if confirmed o then
    result out = Ok () ∧
    Bot.sent (state out) =
      <[transactionHash event := blockNumber event]> (Bot.sent b) ∧
    Bot.failed (state out) = Bot.failed b
  else
    is_throw (result out) = true ∧ state out = b.
Proof.
  intros out. subst out. split.
  - split.
    + destruct o as [|h [| |[[|[| |]|]|]]]; try discriminate. by exists h.
    + by intros [h ->].
  - pose proof (confirmed_result o event b) as Hc.
    rewrite sendPong_result, sendPong_state, afterPong_state.
    destruct (confirmed o).
    + destruct (result (Bot.afterPong o event b)) as [[]|]; [done | discriminate].
    + done.
Qed.

Lemma sendPong_sent_iff_confirmed_witness :
  let out := Bot.sendPong reverted ping2 50000 (bot ∅) in
  let out' := Bot.sendPong mined ping2 50000 (bot ∅) in
  (is_throw (result out) = true ∧ state out = bot ∅) ∧
  (result out' = Ok () ∧ Bot.sent (state out') = {["0xe2" := 7979120]}).
Proof.
  intros out out'. split.
  - by destruct (sendPong_sent_iff_confirmed reverted ping2 50000 (bot ∅))
      as [_ H].
  - destruct (sendPong_sent_iff_confirmed mined ping2 50000 (bot ∅))
      as [_ (Hr & Hs & _)].
    split; [exact Hr |]. etrans; [exact Hs | reflexivity].
Defined.

(** * Further properties of the code *)

(** ** The state manager and its file *)

Section ManagerProperties.
Import BotStateManagerFS.

Lemma saveState_synced (m : t) : synced (state (saveState m)).
Proof. unfold synced. rewrite saveState_eq. apply lookup_insert_eq. Qed.

Lemma synced_with_manager (f : M t ()) (b : Bot.t) :
  (∃ m, f (Bot.botStateManager b) = saveState m) →
  synced (Bot.botStateManager (with_manager f b)).
Proof. intros [m Hm]. unfold with_manager. simpl. rewrite Hm. apply saveState_synced. Qed.

Lemma synced_step (currentBlock : Z) (s : Step) (σ : System) :
  synced (Bot.botStateManager (the_bot σ)) →
  synced (Bot.botStateManager (the_bot (step currentBlock s σ))).
Proof.
  intros H. rewrite the_bot_step. destruct s as [event | a b q | r | r o].
  - rewrite onPing_state. by destruct (_ >? _).
  - rewrite catchMissed_state. destruct (completes q a b); [|done].
    apply synced_with_manager. eexists. apply clearTransactionsBeforeBlock_eq.
  - rewrite queueHandle_begin_eq. cbv zeta.
    destruct (Queue.lock _); [done |].
    destruct (Queue.queue _); by destruct r.
  - destruct (inFlight r σ) as [event|]; [|done].
    rewrite queueHandle_settle_state.
    assert (Hu : ∀ b, Bot.botStateManager (unlocked r b) = Bot.botStateManager b)
      by (intros b; by destruct r).
    rewrite Hu. destruct (confirmed o).
    + apply synced_with_manager. eexists. apply addSentTransaction_eq.
    + rewrite handleErrorPong_state. destruct (String.eqb _ _).
      * by destruct r.
      * apply synced_with_manager. eexists. apply addFailedTransaction_eq.
Qed.

Lemma new_eq (cfg : Configuration.t) (disk : gmap string State.t) :
  new cfg disk =
  saveState
    {| _stateFile := Configuration.stateFile cfg;
       _lastBlock :=
         match disk !! Configuration.stateFile cfg with
         | Some data =>
             if State.lastBlock data >=? Configuration.lastBlock cfg
             then State.lastBlock data else Configuration.lastBlock cfg
         | None => Configuration.lastBlock cfg
         end;
       _sentTransactions :=
         match disk !! Configuration.stateFile cfg with
         | Some data => default ∅ (State.sentTransactions data)
         | None => ∅
         end;
       _failedTransactions :=
         match disk !! Configuration.stateFile cfg with
         | Some data => default ∅ (State.failedTransactions data)
         | None => ∅
         end;
       fs := disk |}.
Proof.
  unfold new, constructor. unfold_M.
  cbn [fs _stateFile set_stateFile set_lastBlock set_sentTransactions
       set_failedTransactions].
  destruct (disk !! Configuration.stateFile cfg) as [data|];
    [destruct (_ >=? _) |]; reflexivity.
Qed.


Lemma new_synced (cfg : Configuration.t) (disk : gmap string State.t) :
  synced (state (new cfg disk)).
Proof.
  unfold new, constructor. unfold_M.
  cbn [fs _stateFile set_stateFile set_lastBlock set_sentTransactions
       set_failedTransactions].
  destruct (disk !! Configuration.stateFile cfg) as [data|];
    [destruct (_ >=? _) |]; apply lookup_insert_eq.
Qed.

(** X1.  Every method of the state manager that changes it returns with the
    state file holding exactly the fields in memory.  So does the
    constructor whenever it returns; on a state file that is not JSON it
    throws instead and writes nothing.  Hence the file and the memory agree
    in every state the event loop reaches once the bot has been built. *)
Theorem state_file_in_sync :
  (∀ h n m, synced (state (addSentTransaction h n m))) ∧
  (∀ h n m, synced (state (addFailedTransaction h n m))) ∧
  (∀ n m, synced (state (setLastBlock n m))) ∧
  (∀ n m, synced (state (clearTransactionsBeforeBlock n m))) ∧
  (∀ cfg disk,
     let out := construct cfg disk in
     if is_throw (result out) then effects out = []
     else synced (state out)) ∧
  (∀ currentBlock disk steps,
     synced (Bot.botStateManager
               (the_bot (run currentBlock steps (boot disk))))).
Proof.
  split_and!.
  - intros. rewrite addSentTransaction_eq. apply saveState_synced.
  - intros. rewrite addFailedTransaction_eq. apply saveState_synced.
  - intros. rewrite setLastBlock_eq. apply saveState_synced.
  - intros. rewrite clearTransactionsBeforeBlock_eq. apply saveState_synced.
  - intros cfg disk out. subst out. unfold construct.
    destruct (disk !! Configuration.stateFile cfg) as [[data | text]|];
      cbn [fmap option_fmap option_map parseState result is_throw effects].
    + assert (Hr : result (new cfg (parsed disk)) = Ok ())
        by (by rewrite new_eq).
      rewrite Hr. apply new_synced.
    + reflexivity.
    + assert (Hr : result (new cfg (parsed disk)) = Ok ())
        by (by rewrite new_eq).
      rewrite Hr. apply new_synced.
  - intros currentBlock disk steps.
    assert (H0 : synced (Bot.botStateManager (the_bot (boot disk))))
      by apply new_synced.
    revert H0. generalize (boot disk).
    induction steps as [|s steps IH]; intros σ H; [done |].
    rewrite run_cons. apply IH. by apply synced_step.
Qed.


(** X3.  Restart: a state manager built on the file system that a manager
    in step with its file leaves behind has the same two maps, and the same
    lastBlock unless that is below the configured block, which then takes
    its place. *)
Theorem restart_recovers (cfg : Configuration.t) (m : t) :
  synced m →
  _stateFile m = Configuration.stateFile cfg →
  let m' := state (new cfg (fs m)) in
  _sentTransactions m' = _sentTransactions m ∧
  _failedTransactions m' = _failedTransactions m ∧
  _lastBlock m' = Z.max (Configuration.lastBlock cfg) (_lastBlock m) ∧
  _stateFile m' = _stateFile m.
Proof.
  intros Hs Hp m'. subst m'. unfold synced in Hs. rewrite Hp in Hs.
  rewrite new_eq, saveState_eq, Hs. cbn.
  split_and!; try done.
  destruct (Z.geb_spec (_lastBlock m) (Configuration.lastBlock cfg)); lia.
Qed.

Lemma restart_recovers_witness :
  let m := state (addSentTransaction "0xe2" 7979120
                    (state (setLastBlock 7979150 (Bot.botStateManager (bot disk1))))) in
  let m' := state (new configuration (fs m)) in
  _sentTransactions m' = _sentTransactions m ∧
  _failedTransactions m' = _failedTransactions m ∧
  _lastBlock m' = Z.max 7979028 7979150 ∧
  _stateFile m' = _stateFile m.
Proof.
  intros m.
  apply (restart_recovers configuration m).
  - vm_compute. reflexivity.
  - reflexivity.
Defined.
End ManagerProperties.

Section ManagerMaps.
Import BotStateManagerFS.

(** X4.  [addSentTransaction] and [addFailedTransaction] are upserts: the
    hash maps to the given block number afterwards, every other entry of
    that map, the other map and lastBlock are as before, and a second
    call with the same arguments changes nothing any more. *)
Theorem add_transaction_upsert (h : string) (n : Z) (m : t) :
  let s := state (addSentTransaction h n m) in
  let f := state (addFailedTransaction h n m) in
  (_sentTransactions s !! h = Some n ∧
   delete h (_sentTransactions s) = delete h (_sentTransactions m) ∧
   _failedTransactions s = _failedTransactions m ∧
   _lastBlock s = _lastBlock m ∧
   state (addSentTransaction h n s) = s) ∧
  (_failedTransactions f !! h = Some n ∧
   delete h (_failedTransactions f) = delete h (_failedTransactions m) ∧
   _sentTransactions f = _sentTransactions m ∧
   _lastBlock f = _lastBlock m ∧
   state (addFailedTransaction h n f) = f).
Proof.
  cbv zeta. rewrite !addSentTransaction_eq, !addFailedTransaction_eq.
  rewrite !saveState_eq. destruct m as [p l s f d]. cbn.
  unfold set_fs, set_sentTransactions, set_failedTransactions, snapshot. cbn.
  rewrite !insert_insert_eq.
  split; split_and!; try reflexivity;
    (apply lookup_insert_eq || apply delete_insert_eq).
Qed.

Lemma cleared_twice (a b : Z) (sent : gmap string Z) :
  filter (λ kv : string * Z, ¬ (kv.2 < b))
    (filter (λ kv : string * Z, ¬ (kv.2 < a)) sent) =
  filter (λ kv : string * Z, ¬ (kv.2 < Z.max a b)) sent.
Proof.
  apply map_eq. intros h. apply option_eq. intros v.
  rewrite !cleared_lookup. intuition lia.
Qed.

(** X5.  Clearing below [a] and then below [b] leaves the state manager,
    file included, as one clearing below the larger of the two does: the
    bound of a later call only counts when it is higher. *)
Theorem clear_twice (a b : Z) (m : t) :
  state (clearTransactionsBeforeBlock b
           (state (clearTransactionsBeforeBlock a m))) =
  state (clearTransactionsBeforeBlock (Z.max a b) m).
Proof.
  rewrite !clearTransactionsBeforeBlock_eq, !saveState_eq.
  destruct m as [p l s f d]. cbn.
  unfold set_fs, set_sentTransactions, snapshot. cbn.
  rewrite insert_insert_eq, cleared_twice. reflexivity.
Qed.
End ManagerMaps.

(** ** The queue as a first-in first-out buffer *)

Section QueueProperties.
Import Queue.

Lemma push_all_fresh (events : list EventLog) (q : t) :
  NoDup (hashes q ++ (transactionHash <$> events))%list →
  queue (push_all events q) = (queue q ++ events)%list.
Proof.
  revert q. induction events as [|e events IH]; intros q Hnd.
  - by rewrite app_nil_r.
  - cbn [push_all foldl]. fold (push_all events (state (push e q))).
    rewrite fmap_cons in Hnd.
    assert (Hs : some_same_hash e (queue q) = false).
    { apply not_true_iff_false. rewrite some_same_hash_spec.
      apply NoDup_app in Hnd as (_ & Hd & _). intros Hin.
      apply (Hd _ Hin). by left. }
    assert (Hp : state (push e q) = set_queue (queue q ++ [e]) q).
    { rewrite push_eq. by rewrite Hs. }
    rewrite Hp, IH.
    + cbn [queue set_queue]. by rewrite <- app_assoc.
    + unfold hashes. cbn [queue set_queue].
      rewrite fmap_app, <- app_assoc. exact Hnd.
Qed.

Lemma shift_n_all (q : t) :
  shift_n (List.length (queue q)) q = (queue q, set_queue [] q).
Proof.
  destruct q as [name l g k]. unfold set_queue. cbn [queue queueName gasModifier lock].
  induction l as [|e rest IH]; [reflexivity |].
  change (shift_n (List.length (e :: rest))
            {| queueName := name; queue := e :: rest; gasModifier := g; lock := k |})
    with (let '(l, q'') := shift_n (List.length rest)
                             {| queueName := name; queue := rest;
                                gasModifier := g; lock := k |}
          in (e :: l, q'')).
  by rewrite IH.
Qed.

(** X6.  First in, first out: events with hashes distinct from each other
    and from those queued, pushed one after the other, are appended in push
    order behind the events already queued, and as many calls of [shift]
    return the old events and then the new ones in that order and leave the
    queue empty. *)
Theorem queue_fifo (events : list EventLog) (q : t) :
  NoDup (hashes q ++ (transactionHash <$> events))%list →
  let q' := push_all events q in
  queue q' = (queue q ++ events)%list ∧
  shift_n (List.length (queue q) + List.length events) q' =
    ((queue q ++ events)%list, set_queue [] q).
Proof.
  intros Hnd q'. subst q'.
  pose proof (push_all_fresh events q Hnd) as Hq.
  split; [exact Hq |].
  rewrite <- length_app, <- Hq, shift_n_all. f_equal.
  unfold set_queue.
  by rewrite push_all_queueName, push_all_gasModifier, push_all_lock.
Qed.

Lemma queue_fifo_witness :
  let q := state (push ping1 (new COMMON_PING_EVENT_QUEUE 1)) in
  let events := [ping2; {| transactionHash := "0xe3"; blockNumber := 7979130;
                           index := 0 |}] in
  queue (push_all events q) = (queue q ++ events)%list ∧
  shift_n (1 + 2) (push_all events q) = ((queue q ++ events)%list, set_queue [] q).
Proof.
  intros q events.
  apply (queue_fifo events q).
  apply (bool_decide_unpack _). vm_compute. exact I.
Defined.

(** X7.  [shift] returns the event that [getFirst] shows and takes just
    that event off the queue; on an empty queue both yield nothing and
    [shift] changes nothing.  [getFirst] and [length] never change the
    queue, and none of the three logs anything. *)
Theorem shift_takes_first (q : t) :
  result (shift q) = result (getFirst q) ∧
  result (getFirst q) = Ok (head (queue q)) ∧
  state (shift q) = set_queue (tail (queue q)) q ∧
  match head (queue q) with
  | None => state (shift q) = q
  | Some _ =>
      result (length q) =
      Ok (1 + Z.of_nat (List.length (queue (state (shift q)))))
  end ∧
  state (getFirst q) = q ∧ state (length q) = q ∧
  effects (shift q) = [] ∧ effects (getFirst q) = [] ∧ effects (length q) = [].
Proof.
  rewrite shift_eq. destruct q as [name [|e rest] g k];
    cbn -[Z.of_nat Z.add]; split_and!; try reflexivity.
  unfold length. unfold_M. cbn [queue result List.length].
  rewrite Nat2Z.inj_succ. f_equal. lia.
Qed.
End QueueProperties.

(** ** The listener for live events *)

(** X8.  The listener ignores an event whose block is not above the head
    block read at start-up: nothing is logged and nothing changes.  An event
    above it is handed to [push] of the common queue, and neither the force
    queue nor the state manager is touched; the listener never throws. *)
Theorem onPing_above_head (currentBlock : Z) (event : EventLog) (b : Bot.t) :
  let out := Bot.onPing currentBlock event b in
  result out = Ok () ∧
  if decide (blockNumber event ≤ currentBlock) then
    state out = b ∧ effects out = []
  else
    Bot.eventQueue (state out) = state (Queue.push event (Bot.eventQueue b)) ∧
    Bot.forceEventQueue (state out) = Bot.forceEventQueue b ∧
    Bot.botStateManager (state out) = Bot.botStateManager b ∧
    effects out =
      Emit LoggerInfo (CatchingNewPing (blockNumber event))
      :: effects (Queue.push event (Bot.eventQueue b)).
Proof.
  cbv zeta. unfold Bot.onPing.
  destruct (Z.gtb_spec (blockNumber event) currentBlock); case_decide; try lia.
  - unfold_M. rewrite on_queue_push. cbn. done.
  - done.
Qed.

(** ** The pass over missed events, in detail *)

Section PassProperties.
Import Bot.

Lemma elem_of_missed_iff (sent : gmap string Z) (events : list EventLog)
    (h : string) :
  h ∈ (transactionHash <$> missed sent events) ↔
  h ∈ (transactionHash <$> events) ∧ sent !! h = None.
Proof.
  unfold missed. rewrite !list_elem_of_fmap. split.
  - intros (e & -> & [He Hin]%list_elem_of_filter). split; [by exists e | done].
  - intros [(e & -> & Hin) Hn]. exists e. split; [done |].
    by apply list_elem_of_filter.
Qed.

Lemma enqueueMissed_logs (event : EventLog) (b : t) :
  Forall (λ x, is_log x = true) (effects (enqueueMissed event b)).
Proof.
  unfold enqueueMissed, on_manager, BotStateManagerFS.getSentTransactions.
  unfold_M. destruct b as [q1 q2 g m].
  cbn [botStateManager set_botStateManager].
  destruct (_ !! _); [by repeat constructor |].
  rewrite (on_queue_push EventQueue), push_eq.
  destruct (Queue.some_same_hash _ _); by repeat constructor.
Qed.

Lemma for_of_logs (events : list EventLog) (b : t) :
  Forall (λ x, is_log x = true) (effects (for_of events enqueueMissed b)).
Proof.
  revert b. induction events as [|e events IH]; intros b; [constructor |].
  cbn [for_of]. unfold mbind, M_bind.
  pose proof (enqueueMissed_logs e b) as H1.
  destruct (enqueueMissed_eq e b) as [l1 E1]. rewrite E1 in H1 |- *.
  cbn [effects] in H1. specialize (IH (match sent b !! transactionHash e with
                                       | Some _ => b
                                       | None => pushed EventQueue e b
                                       end)).
  destruct (for_of events enqueueMissed _) as [r2 s2 l2].
  cbn [effects] in *. by apply Forall_app.
Qed.

Lemma filter_logs_query (l : list Effect) :
  Forall (λ x, is_log x = true) l → filter (λ e, is_query e = true) l = [].
Proof.
  induction 1 as [|x l Hx _ IH]; [done |].
  rewrite filter_cons, IH. destruct x; try discriminate.
  by rewrite decide_False.
Qed.

(** The effects of a pass over a non-empty range whose query is answered:
    the query, log lines, then the two writes. *)
Lemma catchMissed_effects (events : list EventLog) (a b : Z) (bt : t) :
  a < b →
  ∃ logs w1 w2,
    effects (catchMissedEventsFromTo (QueryEvents events) a b bt) =
      Emit LoggerInfo (CheckingMissed (a + 1) b)
      :: QueryFilter (a + 1) b :: logs ++ [w1; w2] ∧
    Forall (λ x, is_log x = true) logs ∧
    is_write w1 = true ∧ is_write w2 = true.
Proof.
  intros Hlt. unfold catchMissedEventsFromTo.
  destruct (Z.gtb_spec b a) as [_ | ?]; [|lia].
  pose proof (for_of_logs events bt) as Hlogs.
  destruct (for_of_enqueueMissed events bt) as [l Hl].
  rewrite Hl in Hlogs. cbn [effects] in Hlogs.
  unfold_M. rewrite Hl. cbv beta iota.
  rewrite on_manager_setLastBlock. cbv beta iota.
  rewrite on_manager_clear.
  rewrite setLastBlock_eq, clearTransactionsBeforeBlock_eq, !saveState_eq.
  cbn [effects app].
  eexists (_ :: l), _, _. split_and!.
  - reflexivity.
  - by constructor.
  - reflexivity.
  - reflexivity.
Qed.

(** X9.  A pass over a non-empty range whose query is answered pushes into
    the common queue exactly the events of the answer that have no entry in
    sentTransactions: afterwards a hash is in the common queue if and only
    if it was there before or belongs to such an event.  An event with an
    entry in sentTransactions is never queued by a pass.  The events queued
    before stay in front in their order and the force queue is untouched. *)
Theorem catchMissed_enqueues
    (events : list EventLog) (a b : Z) (bt : t) (h : string) :
  a < b →
  let bt' := state (catchMissedEventsFromTo (QueryEvents events) a b bt) in
  (h ∈ Queue.hashes (eventQueue bt') ↔
   h ∈ Queue.hashes (eventQueue bt) ∨
   (h ∈ (transactionHash <$> events) ∧ sent bt !! h = None)) ∧
  Queue.queue (eventQueue bt) `prefix_of` Queue.queue (eventQueue bt') ∧
  forceEventQueue bt' = forceEventQueue bt.
Proof.
  intros Hlt bt'. subst bt'. rewrite catchMissed_state.
  unfold completes, enqueued. destruct (Z.gtb_spec b a) as [_ | ?]; [|lia].
  cbn [eventQueue forceEventQueue with_manager set_botStateManager assign].
  split_and!; [| | reflexivity].
  - by rewrite push_all_elem_of, elem_of_missed_iff.
  - generalize (missed (sent bt) events). intros l.
    generalize (eventQueue bt). clear. intros q.
    revert q. induction l as [|e l IH]; intros q; [done |].
    cbn [push_all foldl]. fold (push_all l (state (Queue.push e q))).
    etrans; [|apply IH]. rewrite push_eq.
    destruct (Queue.some_same_hash _ _); [done | by apply prefix_app_r].
Qed.

Lemma catchMissed_enqueues_witness :
  let bt' := state (catchMissedEventsFromTo (QueryEvents [ping1; ping2])
                      7979100 7979200 (bot disk1)) in
  Queue.queue (eventQueue bt') = [ping2] ∧
  ("0xe1" ∈ Queue.hashes (eventQueue bt') ↔
   "0xe1" ∈ Queue.hashes (eventQueue (bot disk1)) ∨
   ("0xe1" ∈ (transactionHash <$> [ping1; ping2]) ∧
    sent (bot disk1) !! "0xe1" = None)).
Proof.
  intros bt'. split; [vm_compute; reflexivity |].
  apply (catchMissed_enqueues [ping1; ping2] 7979100 7979200 (bot disk1) "0xe1").
  lia.
Defined.

(** X10.  A pass over a non-empty range issues exactly one query, for the
    blocks from [startBlockNumber + 1] to [endBlockNumber], whether it is
    answered or throws. *)
Theorem catchMissed_one_query (q : QueryOutcome) (a b : Z) (bt : t) :
  a < b →
  filter (λ e, is_query e = true)
    (effects (catchMissedEventsFromTo q a b bt)) = [QueryFilter (a + 1) b].
Proof.
  intros Hlt. destruct q as [error | events].
  - unfold catchMissedEventsFromTo.
    destruct (Z.gtb_spec b a) as [_ | ?]; [reflexivity | lia].
  - destruct (catchMissed_effects events a b bt Hlt)
      as (logs & w1 & w2 & -> & Hlogs & H1 & H2).
    rewrite filter_cons, decide_False by done.
    rewrite filter_cons, decide_True by done.
    rewrite filter_app, (filter_logs_query logs Hlogs).
    destruct w1, w2; try discriminate. reflexivity.
Qed.

Lemma catchMissed_one_query_witness :
  filter (λ e, is_query e = true)
    (effects (catchMissedEventsFromTo (QueryEvents [ping2]) 7979100 7979200
                (bot disk1))) = [QueryFilter 7979101 7979200].
Proof.
  apply (catchMissed_one_query (QueryEvents [ping2]) 7979100 7979200 (bot disk1)).
  lia.
Defined.

(** X11.  When the query of a pass throws, the pass throws the same error
    and leaves the bot as it was: nothing is queued, lastBlock is not moved,
    nothing is cleared and the state file is not written. *)
Theorem catchMissed_query_throws (error : Exn) (a b : Z) (bt : t) :
  a < b →
  catchMissedEventsFromTo (QueryThrows error) a b bt =
  {| result := Throw error; state := bt;
     effects := [Emit LoggerInfo (CheckingMissed (a + 1) b);
                 QueryFilter (a + 1) b] |}.
Proof.
  intros Hlt. unfold catchMissedEventsFromTo.
  destruct (Z.gtb_spec b a) as [_ | ?]; [reflexivity | lia].
Qed.

Lemma catchMissed_query_throws_witness :
  catchMissedEventsFromTo (QueryThrows (Error "timeout")) 7979100 7979200
    (bot disk1) =
  {| result := Throw (Error "timeout"); state := bot disk1;
     effects := [Emit LoggerInfo (CheckingMissed (7979100 + 1) 7979200);
                 QueryFilter (7979100 + 1) 7979200] |}.
Proof.
  apply (catchMissed_query_throws (Error "timeout") 7979100 7979200 (bot disk1)).
  lia.
Defined.
End PassProperties.

(** ** Draining a queue, in detail *)

Section DrainProperties.
Import Bot.

Lemma handleErrorPong_no_pong (event : EventLog) (r : QueueRef) (b : t) :
  Forall (λ x, is_pong x = false) (effects (handleErrorPong event r b)).
Proof.
  rewrite handleErrorPong_eq. destruct (String.eqb _ _).
  - rewrite on_queue_push, push_eq.
    destruct (Queue.some_same_hash _ _); by repeat constructor.
  - rewrite on_manager_addFailed, addFailedTransaction_eq, saveState_eq.
    by repeat constructor.
Qed.

Lemma afterPong_no_pong (o : PongOutcome) (event : EventLog) (b : t) :
  Forall (λ x, is_pong x = false) (effects (afterPong o event b)).
Proof.
  unfold afterPong. destruct o as [|h [| |status]]; try by repeat constructor.
  unfold_M. case_decide; [|by repeat constructor].
  rewrite on_manager_addSent, addSentTransaction_eq, saveState_eq.
  by repeat constructor.
Qed.

Lemma settle_no_pong (o : PongOutcome) (event : EventLog) (r : QueueRef) (b : t) :
  Forall (λ x, is_pong x = false) (effects (queueHandle_settle o event r b)).
Proof.
  pose proof (afterPong_no_pong o event b) as Ha.
  unfold queueHandle_settle, queueHandle_catch, sendPong_catch. unfold_M.
  destruct (afterPong o event b) as [[[]|error] s l]; cbn [effects] in Ha.
  - rewrite unlock_eq. by rewrite app_nil_r.
  - pose proof (handleErrorPong_no_pong event r s) as Hh.
    destruct (handleErrorPong event r s) as [r' s' l']. cbn [effects] in Hh.
    rewrite unlock_eq. rewrite app_nil_r.
    apply Forall_app. split; [|by constructor].
    apply Forall_app. split; [done | by repeat constructor].
Qed.

Lemma filter_no_pong (l : list Effect) :
  Forall (λ x, is_pong x = false) l → filter (λ e, is_pong e = true) l = [].
Proof.
  induction 1 as [|x l Hx _ IH]; [done |].
  rewrite filter_cons, IH. rewrite decide_False; [done |]. by rewrite Hx.
Qed.

Lemma configured_step (currentBlock : Z) (s : Step) (σ : System) :
  configured (the_bot σ) → configured (the_bot (step currentBlock s σ)).
Proof.
  assert (Hp : ∀ r e b, configured b → configured (pushed r e b)).
  { intros r e b (H1 & H2 & H3). destruct r; split_and!; simpl;
      rewrite ?push_gasModifier; done. }
  assert (Hu : ∀ r b, configured b → configured (unlocked r b)).
  { intros r b (H1 & H2 & H3). by destruct r. }
  assert (Hm : ∀ f b, configured b → configured (with_manager f b)).
  { by intros f b (H1 & H2 & H3). }
  intros H. rewrite the_bot_step. destruct s as [event | a b q | r | r o].
  - rewrite onPing_state. destruct (_ >? _); [by apply Hp | done].
  - rewrite catchMissed_state. destruct (completes q a b); [|done].
    do 2 apply Hm. destruct H as (H1 & H2 & H3).
    split_and!; simpl; rewrite ?push_all_gasModifier; done.
  - rewrite queueHandle_begin_eq. cbv zeta.
    destruct (Queue.lock _); [done |].
    destruct (Queue.queue _); cbn [state]; [by apply Hu |].
    destruct H as (H1 & H2 & H3). by destruct r.
  - destruct (inFlight r σ) as [event|]; [|done].
    rewrite queueHandle_settle_state. apply Hu.
    destruct (confirmed o); [by apply Hm |].
    rewrite handleErrorPong_state.
    destruct (String.eqb _ _); [by apply Hp | by apply Hm].
Qed.

Lemma configured_run (currentBlock : Z) (steps : list Step) (σ : System) :
  configured (the_bot σ) → configured (the_bot (run currentBlock steps σ)).
Proof.
  revert σ. induction steps as [|s steps IH]; intros σ H; [done |].
  rewrite run_cons. apply IH. by apply configured_step.
Qed.

(** X12.  In every state the program's event loop reaches, a drain that
    finds its queue unlocked and not empty calls [pong] exactly once, for
    the hash of the head event, with gas limit 50000 from the common queue
    and 100000 from the force queue, whatever the outcome. *)
Theorem drain_gas_limit
    (currentBlock : Z) (disk : gmap string State.t) (steps : list Step)
    (o : PongOutcome) (r : QueueRef) (event : EventLog) (rest : list EventLog) :
  let b := the_bot (run currentBlock steps (boot disk)) in
  Queue.lock (deref r b) = false →
  Queue.queue (deref r b) = event :: rest →
  filter (λ e, is_pong e = true) (effects (queueHandle o r b)) =
    [ContractPong (transactionHash event) (gasLimitOf r)].
Proof.
  intros b Hlock Hq.
  assert (Hc : configured b).
  { apply configured_run. by split_and!. }
  rewrite queueHandle_split, queueHandle_begin_eq. cbv zeta.
  rewrite Hlock, Hq.
  pose proof (settle_no_pong o event r
                (assign r (Queue.set_queue rest
                             (Queue.set_lock true (deref r b))) b)) as Hs.
  destruct (queueHandle_settle _ _ _ _) as [res b2 l2]. cbn [effects] in *.
  cbn [app]. rewrite filter_cons, decide_False by done.
  rewrite filter_cons, decide_True by done.
  rewrite (filter_no_pong l2 Hs). f_equal. f_equal.
  destruct Hc as (H1 & H2 & H3). rewrite H1.
  destruct r; cbn [deref gasLimitOf]; [by rewrite H2 | by rewrite H3].
Qed.

Lemma drain_gas_limit_witness :
  let steps := [PingEvent ping2; Tick EventQueue; Settle EventQueue rejected] in
  let b := the_bot (run 7979100 steps (boot ∅)) in
  filter (λ e, is_pong e = true) (effects (queueHandle reverted ForceEventQueue b)) =
    [ContractPong "0xe2" 100000].
Proof.
  intros steps b.
  apply (drain_gas_limit 7979100 ∅ steps reverted ForceEventQueue ping2 []).
  - vm_compute. reflexivity.
  - vm_compute. reflexivity.
Defined.

Lemma lock_step (currentBlock : Z) (s : Step) (σ : System) :
  (∀ r, Queue.lock (deref r (the_bot σ)) = pongInFlight r σ) →
  ∀ r, Queue.lock (deref r (the_bot (step currentBlock s σ))) =
       pongInFlight r (step currentBlock s σ).
Proof.
  unfold pongInFlight. intros H r.
  rewrite the_bot_step, inFlight_step.
  destruct s as [event | a b q | r' | r' o].
  - rewrite onPing_state. destruct (_ >? _); [|apply H].
    rewrite <- H. unfold pushed. rewrite deref_assign.
    case_decide; [subst; apply push_lock | done].
  - rewrite catchMissed_state. destruct (completes q a b); [|apply H].
    rewrite <- H. cbn [with_manager set_botStateManager].
    destruct r; [apply push_all_lock | reflexivity].
  - rewrite queueHandle_begin_eq. cbv zeta.
    destruct (Queue.lock (deref r' (the_bot σ))) eqn:Hl.
    + cbn [state result]. case_decide; apply H.
    + destruct (Queue.queue (deref r' (the_bot σ))); cbn [state result].
      * unfold unlocked. rewrite deref_assign.
        case_decide; [subst r'; by rewrite <- H, Hl | apply H].
      * rewrite deref_assign. case_decide; [done | apply H].
  - destruct (inFlight r' σ) as [event|] eqn:Hin.
    + rewrite queueHandle_settle_state. unfold unlocked.
      rewrite deref_assign. case_decide; [done |].
      rewrite <- H. destruct (confirmed o); [by destruct r |].
      rewrite handleErrorPong_state.
      destruct (String.eqb _ _); [|by destruct r].
      unfold pushed. rewrite deref_assign.
      case_decide; [subst; apply push_lock | done].
    + case_decide; [subst r'; by rewrite H, Hin | apply H].
Qed.

(** X13.  In every state the program's event loop reaches, the lock of a
    queue is set exactly while a pong for an event of that queue is in
    flight; and while one is in flight, a timer tick on that queue changes
    nothing, so there is at most one pong in flight for each queue. *)
Theorem lock_while_in_flight
    (currentBlock : Z) (disk : gmap string State.t) (steps : list Step)
    (r : QueueRef) :
  let σ := run currentBlock steps (boot disk) in
  Queue.lock (deref r (the_bot σ)) = pongInFlight r σ ∧
  (if pongInFlight r σ then step currentBlock (Tick r) σ = σ
   else inFlight r σ = None).
Proof.
  intros σ.
  assert (Hinv : ∀ r, Queue.lock (deref r (the_bot σ)) = pongInFlight r σ).
  { subst σ. assert (H0 : ∀ r, Queue.lock (deref r (the_bot (boot disk))) =
                               pongInFlight r (boot disk))
      by (intros []; reflexivity).
    revert H0. generalize (boot disk). clear r.
    induction steps as [|s steps IH]; intros σ H r; [apply H |].
    rewrite run_cons. apply IH. by apply lock_step. }
  split; [apply Hinv |].
  specialize (Hinv r). unfold pongInFlight in *.
  destruct (inFlight r σ) as [event|] eqn:Hin; [|done].
  unfold step, turn. rewrite queueHandle_begin_eq. cbv zeta. rewrite Hinv.
  cbn [result state effects]. rewrite app_nil_r. by destruct σ.
Qed.
End DrainProperties.

Section DrainOutcomes.
Import Bot.

(** X14.  A drain whose pong is confirmed takes the head event off its
    queue, sets the entry of its hash in sentTransactions to its block
    number, returns normally with the lock clear, and changes neither the
    other queue nor failedTransactions nor lastBlock; this holds for either
    queue. *)
Theorem drain_confirmed
    (o : PongOutcome) (r : QueueRef) (event : EventLog)
    (rest : list EventLog) (b : t) :
  confirmed o = true →
  Queue.lock (deref r b) = false →
  Queue.queue (deref r b) = event :: rest →
  let out := queueHandle o r b in
  result out = Ok () ∧
  deref r (state out) = Queue.set_queue rest (deref r b) ∧
  sent (state out) = <[transactionHash event := blockNumber event]> (sent b) ∧
  failed (state out) = failed b ∧
  lastBlock (state out) = lastBlock b ∧
  match r with
  | EventQueue => forceEventQueue (state out) = forceEventQueue b
  | ForceEventQueue => eventQueue (state out) = eventQueue b
  end.
Proof.
  intros Ho Hlock Hq out. subst out.
  rewrite queueHandle_split, queueHandle_begin_eq. cbv zeta.
  rewrite Hlock, Hq.
  pose proof (queueHandle_settle_state o event r
                (assign r (Queue.set_queue rest
                             (Queue.set_lock true (deref r b))) b)) as Hs.
  pose proof (queueHandle_settle_result o event r
                (assign r (Queue.set_queue rest
                             (Queue.set_lock true (deref r b))) b)) as Hr.
  destruct (queueHandle_settle _ _ _ _) as [res b2 l2].
  cbn [state result] in *. subst b2 res. rewrite Ho.
  destruct b as [[n1 l1 g1 k1] [n2 l2' g2 k2] g m], r;
    cbn in Hlock, Hq |- *; subst; split_and!; reflexivity.
Qed.

Lemma drain_confirmed_witness :
  let b := state (onPing 7979100 ping2 (bot ∅)) in
  let out := queueHandle mined EventQueue b in
  result out = Ok () ∧
  deref EventQueue (state out) = Queue.set_queue [] (deref EventQueue b) ∧
  sent (state out) = <["0xe2" := 7979120]> (sent b) ∧
  failed (state out) = failed b ∧
  lastBlock (state out) = lastBlock b ∧
  forceEventQueue (state out) = forceEventQueue b.
Proof.
  intros b.
  apply (drain_confirmed mined EventQueue ping2 [] b); reflexivity.
Defined.

(** X15.  A drain that finds its queue unlocked and empty does nothing: no
    call of [pong], no log line, no write, and the bot is unchanged, lock
    included. *)
Theorem drain_empty (o : PongOutcome) (r : QueueRef) (b : t) :
  Queue.lock (deref r b) = false →
  Queue.queue (deref r b) = [] →
  queueHandle o r b = {| result := Ok (); state := b; effects := [] |}.
Proof.
  intros Hlock Hq. rewrite queueHandle_split, queueHandle_begin_eq. cbv zeta.
  rewrite Hlock, Hq. f_equal.
  destruct b as [[n1 l1 g1 k1] [n2 l2 g2 k2] g m], r; cbn in *; by subst.
Qed.

Lemma drain_empty_witness :
  queueHandle mined ForceEventQueue (bot disk1) =
  {| result := Ok (); state := bot disk1; effects := [] |}.
Proof. apply (drain_empty mined ForceEventQueue (bot disk1)); reflexivity. Defined.

(** X16.  [sendPong] calls [pong] exactly once, before anything else, with
    the hash of the event and the gas limit it was given; it writes the
    state file once when the pong is confirmed and never otherwise, and it
    touches neither queue. *)
Theorem sendPong_effects
    (o : PongOutcome) (event : EventLog) (gasLimit : Z) (b : t) :
  let out := sendPong o event gasLimit b in
  head (effects out) = Some (ContractPong (transactionHash event) gasLimit) ∧
  filter (λ e, is_pong e = true) (effects out) =
    [ContractPong (transactionHash event) gasLimit] ∧
  filter (λ e, is_write e = true) (effects out) =
    (if confirmed o
     then effects (BotStateManagerFS.addSentTransaction
                     (transactionHash event) (blockNumber event)
                     (botStateManager b))
     else []) ∧
  eventQueue (state out) = eventQueue b ∧
  forceEventQueue (state out) = forceEventQueue b.
Proof.
  cbv zeta. rewrite sendPong_eq. unfold sendPong_catch, afterPong.
  destruct o as [error | h [error | | [[|[| |]|]|]]]; unfold_M;
    split_and!; reflexivity.
Qed.

(** X17.  [init] on a bot whose stored lastBlock is below the head block
    issues one query, from the stored lastBlock plus one to the head block;
    when the query is answered, [init] returns normally, lastBlock is the
    head block, and every event of the answer without an entry in
    sentTransactions has its hash in the common queue. *)
Theorem init_catches_up
    (currentBlock : Z) (events : list EventLog) (b : t) (event : EventLog) :
  lastBlock b < currentBlock →
  let out := init currentBlock (QueryEvents events) b in
  result out = Ok () ∧
  filter (λ e, is_query e = true) (effects out) =
    [QueryFilter (lastBlock b + 1) currentBlock] ∧
  lastBlock (state out) = currentBlock ∧
  (event ∈ events → sent b !! transactionHash event = None →
   transactionHash event ∈ Queue.hashes (eventQueue (state out))).
Proof.
  intros Hlt out.
  assert (Hout : out =
            let o := catchMissedEventsFromTo (QueryEvents events)
                       (lastBlock b) currentBlock b in
            {| result := result o; state := state o;
               effects := Emit LoggerInfo (BotStarted currentBlock)
                          :: effects o |}).
  { subst out. unfold init, on_manager, BotStateManagerFS.getLastBlock, lastBlock.
    unfold_M. destruct b as [q1 q2 g m].
    cbn [botStateManager set_botStateManager].
    by destruct (catchMissedEventsFromTo _ _ _ _) as [res s l]. }
  rewrite Hout. cbv zeta. cbn [result state effects].
  rewrite catchMissed_result, catchMissed_state.
  unfold completes, enqueued.
  destruct (Z.gtb_spec currentBlock (lastBlock b)) as [_ | ?]; [|lia].
  split_and!; [reflexivity | | reflexivity |].
  - destruct (catchMissed_effects events (lastBlock b) currentBlock b Hlt)
      as (logs & w1 & w2 & -> & Hlogs & H1 & H2).
    rewrite filter_cons, decide_False by done.
    rewrite filter_cons, decide_False by done.
    rewrite filter_cons, decide_True by done.
    rewrite filter_app, (filter_logs_query logs Hlogs).
    destruct w1, w2; try discriminate. reflexivity.
  - intros Hin Hs.
    cbn [eventQueue with_manager set_botStateManager assign].
    apply push_all_elem_of. right. apply elem_of_missed_iff.
    split; [|done]. apply list_elem_of_fmap. by exists event.
Qed.

Lemma init_catches_up_witness :
  let out := init 7979200 (QueryEvents [ping1; ping2]) (bot disk1) in
  result out = Ok () ∧
  filter (λ e, is_query e = true) (effects out) =
    [QueryFilter 7979101 7979200] ∧
  lastBlock (state out) = 7979200 ∧
  "0xe2" ∈ Queue.hashes (eventQueue (state out)).
Proof.
  intros out.
  destruct (init_catches_up 7979200 [ping1; ping2] (bot disk1) ping2)
    as (Hr & Hq & Hl & Hin).
  - vm_compute. reflexivity.
  - split_and!; [exact Hr | exact Hq | exact Hl |].
    apply Hin; [|vm_compute; reflexivity].
    apply list_elem_of_In. right. by left.
Defined.

(** X18.  What a step of the event loop does to lastBlock and
    sentTransactions: only a pass that completes moves lastBlock (to its end
    block) and removes sent entries (those below its end block); only the
    settling of a confirmed pong adds a sent entry (that of the event in
    flight); live events, timer ticks and failed pongs change neither. *)
Theorem store_step (currentBlock : Z) (s : Step) (σ : System) :
  let σ' := step currentBlock s σ in
  lastBlock (the_bot σ') =
    match s with
    | CatchMissed a b q =>
        if is_throw (result (catchMissedEventsFromTo q a b (the_bot σ)))
        then lastBlock (the_bot σ) else b
    | _ => lastBlock (the_bot σ)
    end ∧
  sent (the_bot σ') =
    match s with
    | CatchMissed a b q =>
        if is_throw (result (catchMissedEventsFromTo q a b (the_bot σ)))
        then sent (the_bot σ)
        else filter (λ kv, ¬ (kv.2 < b)) (sent (the_bot σ))
    | Settle r o =>
        match inFlight r σ with
        | Some event =>
            if confirmed o
            then <[transactionHash event := blockNumber event]>
                   (sent (the_bot σ))
            else sent (the_bot σ)
        | None => sent (the_bot σ)
        end
    | _ => sent (the_bot σ)
    end.
Proof.
  cbv zeta. rewrite the_bot_step. destruct s as [event | a b q | r | r o].
  - rewrite onPing_state. by destruct (_ >? _).
  - rewrite catchMissed_state, catchMissed_result. unfold completes.
    destruct q, (b >? a); cbn [is_throw];
      rewrite ?lastBlock_moved, ?sent_moved; done.
  - rewrite queueHandle_begin_eq. cbv zeta.
    destruct (Queue.lock _); [done |].
    destruct (Queue.queue _); by destruct r.
  - destruct (inFlight r σ) as [event|]; [|done].
    rewrite queueHandle_settle_state.
    destruct (confirmed o); [by destruct r |].
    rewrite handleErrorPong_state.
    destruct (String.eqb _ _); by destruct r.
Qed.
End DrainOutcomes.

Section FailedProperties.
Import Bot.

(** X19.  In every state the program's event loop reaches, the only step
    that changes failedTransactions is the settling of a pong that failed
    for an event taken from the force queue, and it sets the entry of that
    event's hash to its block number; a failure from the common queue, a
    confirmed pong, a pass, a live event and a timer tick leave
    failedTransactions alone. *)
Theorem failed_only_from_force
    (currentBlock : Z) (disk : gmap string State.t) (steps : list Step)
    (s : Step) :
  let σ := run currentBlock steps (boot disk) in
  failed (the_bot (step currentBlock s σ)) =
    match s with
    | Settle ForceEventQueue o =>
        match inFlight ForceEventQueue σ with
        | Some event =>
            if confirmed o then failed (the_bot σ)
            else <[transactionHash event := blockNumber event]>
                   (failed (the_bot σ))
        | None => failed (the_bot σ)
        end
    | _ => failed (the_bot σ)
    end.
Proof.
  intros σ.
  assert (Hw : wired (the_bot σ)) by apply wired_run, wired_boot.
  destruct Hw as [Hn1 Hn2].
  rewrite failed_step. destruct s as [| | |r o]; try reflexivity.
  destruct r; cbn [deref].
  - rewrite Hn1. destruct (inFlight _ _), (confirmed o); reflexivity.
  - rewrite Hn2. destruct (inFlight _ _), (confirmed o); reflexivity.
Qed.
End FailedProperties.
